(** * reliable-mcp: the process wrapper (src/process-wrapper.ts)

    A shallow embedding of the [ProcessWrapper] class and of the part of the
    Node.js runtime it talks to (the host [process] object with its listeners,
    pending [setTimeout] callbacks, the [ChildProcess] handle, tree-kill), and
    the properties of its start / terminate / cleanup life cycle.

    The wrapper is event driven.  Every callback of the source is a function
    in a small state-and-exception monad over a [World]; [step] delivers one
    event of the event loop, [run] a sequence of them.  What the operating
    system answers to a [kill] or a [treeKill] call is not decided by the
    program: it is an input of each step ([Env]). *)

From stdpp Require Import base list strings pretty.

Local Open Scope Z_scope.
Local Open Scope string_scope.

(** ** Data *)

(** [WrapperOptions]: the fields the wrapper reads.  Optional fields are
    [option]s ([None] is [undefined]).  [cwd], [env] and [shell] are handed to
    [spawn] verbatim and play no part in the life cycle. *)
Module WrapperOptions.
Record t := mk {
  command : string;
  args : option (list string);
  windowsHide : option bool;
  detached : option bool;
  timeout : option Z;
  label : option string;
  verbose : option bool
}.
End WrapperOptions.

(** The two fields of Node's [ChildProcess] the wrapper reads.  [pid] is
    [undefined] when the spawn failed.  [killed] is Node's flag: it is set by
    [ChildProcess.kill] when the signal was delivered, and says nothing about
    the child having exited. *)
Module ChildProcess.
Record t := mk {
  pid : option Z;
  killed : bool
}.
End ChildProcess.

Inductive Level := info | error | debug.

(** The closures [setupCleanupHandlers] registers on [process].  The run index
    stands for the identity of the closure: every call of [start] creates
    fresh ones. *)
Inductive HandlerKind :=
  | SignalHandler (signal : string)
  | ExceptionHandler
  | ExitHandler.

Record Handler := mkHandler { h_run : nat; h_kind : HandlerKind }.

(** The [setTimeout] callbacks of the source. *)
Inductive Timer :=
  | TimeoutTimer        (* start: options.timeout *)
  | ForceKillTimer      (* terminate, Unix: 3000 ms *)
  | SignalExitTimer     (* signal handler: 5000 ms *)
  | ExceptionExitTimer. (* uncaughtException handler: 1000 ms *)

Inductive Stream := stdout | stderr.

(** Calls into the runtime, in the order they were made. *)
Inductive Action :=
  | Console (s : Stream) (line : string)
  | Spawn (command : string) (args : list string) (windowsHide detached : bool)
  | Kill (signal : string)
  | TreeKill (pid : option Z) (signal : string)
  | ProcessOn (event : string) (h : Handler)
  | RemoveListener (event : string) (h : Handler)
  | SetTimeout (t : Timer) (ms : Z)
  | ProcessExit (code : Z).

(** The private fields of the class. *)
Record ProcessWrapper := mkWrapper {
  options : WrapperOptions.t;
  child : option ChildProcess.t;
  isWindows : bool;
  cleanupHandlers : list (string * Handler);
  exitPromise : option nat;
  terminated : bool;
  label : string;
  verbose : bool
}.

(** One entry per child that [start] spawned: whether the child carries the
    'exit' listener of that call, and the state of the promise that listener
    resolves ([None]: pending). *)
Record Run := mkRun {
  exitListening : bool;
  outcome : option Z
}.

(** The wrapper and the runtime around it. *)
Record World := mkWorld {
  this : ProcessWrapper;
  listeners : list (string * Handler);  (* process.on registrations *)
  timers : list Timer;                  (* pending setTimeout callbacks *)
  treeKills : nat;                      (* pending tree-kill callbacks *)
  runs : list Run;
  title : option string;                (* process.title, when set *)
  exiting : option Z;                   (* process.exit was called *)
  effects : list Action
}.

(** What the operating system answers while one event is handled. *)
Inductive KillResult :=
  | KillDelivered                 (* kill returns true, child.killed is set *)
  | KillNotDelivered              (* no such process: kill returns false *)
  | KillEmitsError (msg : string) (* the child emits 'error', kill returns false *)
  | KillThrows (msg : string).    (* invalid signal and the like *)

Record Env := mkEnv {
  kill_result : KillResult;
  treeKill_throws : option string
}.

(** ** The monad: state of the world, and JavaScript exceptions *)

Inductive Result (A : Type) :=
  | Ok (a : A)
  | Throw (msg : string).
Arguments Ok {A} a.
Arguments Throw {A} msg.

Definition M (A : Type) : Type := World -> Result A * World.

Definition ret {A} (a : A) : M A := fun w => (Ok a, w).
Definition throw {A} (msg : string) : M A := fun w => (Throw msg, w).
Definition bind {A B} (m : M A) (f : A -> M B) : M B := fun w =>
  match m w with
  | (Ok a, w') => f a w'
  | (Throw msg, w') => (Throw msg, w')
  end.
Definition try_catch {A} (body : M A) (handler : string -> M A) : M A := fun w =>
  match body w with
  | (Ok a, w') => (Ok a, w')
  | (Throw msg, w') => handler msg w'
  end.
Definition get : M World := fun w => (Ok w, w).
Definition modify (f : World -> World) : M unit := fun w => (Ok tt, f w).

Declare Scope m_scope.
Delimit Scope m_scope with M.
Notation "x <- c1 ;; c2" := (bind c1 (fun x => c2))
  (at level 100, c1 at next level, c2 at level 200, right associativity) : m_scope.
Notation "c1 ;; c2" := (bind c1 (fun _ => c2))
  (at level 100, c2 at level 200, right associativity) : m_scope.
Local Open Scope m_scope.

(** Field updates. *)
Definition with_this (f : ProcessWrapper -> ProcessWrapper) (w : World) : World :=
  mkWorld (f (this w)) (listeners w) (timers w) (treeKills w) (runs w)
          (title w) (exiting w) (effects w).
Definition set_child (c : option ChildProcess.t) (p : ProcessWrapper) :=
  mkWrapper (options p) c (isWindows p) (cleanupHandlers p) (exitPromise p)
            (terminated p) (label p) (verbose p).
Definition set_cleanupHandlers (l : list (string * Handler)) (p : ProcessWrapper) :=
  mkWrapper (options p) (child p) (isWindows p) l (exitPromise p)
            (terminated p) (label p) (verbose p).
Definition set_exitPromise (e : option nat) (p : ProcessWrapper) :=
  mkWrapper (options p) (child p) (isWindows p) (cleanupHandlers p) e
            (terminated p) (label p) (verbose p).
Definition set_terminated (b : bool) (p : ProcessWrapper) :=
  mkWrapper (options p) (child p) (isWindows p) (cleanupHandlers p) (exitPromise p)
            b (label p) (verbose p).
Definition set_listeners (l : list (string * Handler)) (w : World) :=
  mkWorld (this w) l (timers w) (treeKills w) (runs w) (title w) (exiting w) (effects w).
Definition set_timers (l : list Timer) (w : World) :=
  mkWorld (this w) (listeners w) l (treeKills w) (runs w) (title w) (exiting w) (effects w).
Definition set_treeKills (n : nat) (w : World) :=
  mkWorld (this w) (listeners w) (timers w) n (runs w) (title w) (exiting w) (effects w).
Definition set_runs (l : list Run) (w : World) :=
  mkWorld (this w) (listeners w) (timers w) (treeKills w) l (title w) (exiting w) (effects w).
Definition set_title (t : option string) (w : World) :=
  mkWorld (this w) (listeners w) (timers w) (treeKills w) (runs w) t (exiting w) (effects w).
Definition set_exiting (e : option Z) (w : World) :=
  mkWorld (this w) (listeners w) (timers w) (treeKills w) (runs w) (title w) e (effects w).
Definition emit (a : Action) (w : World) :=
  mkWorld (this w) (listeners w) (timers w) (treeKills w) (runs w) (title w) (exiting w)
          (effects w ++ [a]).

(** ** The runtime *)

Definition console (s : Stream) (line : string) : M unit := modify (emit (Console s line)).

(** [setTimeout(callback, ms)] *)
Definition setTimeout (t : Timer) (ms : Z) : M unit :=
  modify (fun w => set_timers (timers w ++ [t]) (emit (SetTimeout t ms) w)).

(** [process.on(event, handler)] *)
Definition process_on (event : string) (h : Handler) : M unit :=
  modify (fun w => set_listeners (listeners w ++ [(event, h)]) (emit (ProcessOn event h) w)).

Definition same_handler (h1 h2 : Handler) : bool :=
  Nat.eqb (h_run h1) (h_run h2) &&
  match h_kind h1, h_kind h2 with
  | SignalHandler s1, SignalHandler s2 => String.eqb s1 s2
  | ExceptionHandler, ExceptionHandler => true
  | ExitHandler, ExitHandler => true
  | _, _ => false
  end.

Definition same_listener (x y : string * Handler) : bool :=
  String.eqb (fst x) (fst y) && same_handler (snd x) (snd y).

(** Node's [removeListener] takes out at most one registration, the one added
    last. *)
Fixpoint remove_first (x : string * Handler) (l : list (string * Handler)) :=
  match l with
  | [] => []
  | y :: l' => if same_listener x y then l' else y :: remove_first x l'
  end.
Definition remove_last (x : string * Handler) (l : list (string * Handler)) :=
  rev (remove_first x (rev l)).

Definition process_removeListener (event : string) (h : Handler) : M unit :=
  modify (fun w => set_listeners (remove_last (event, h) (listeners w))
                                 (emit (RemoveListener event h) w)).

(** ** ProcessWrapper *)

(** [options.label || path.basename(options.command)]: an empty label is
    falsy.  [path.basename] is Node's, taken as a parameter. *)
Definition new_ProcessWrapper (basename : string -> string) (platform_is_win32 : bool)
    (o : WrapperOptions.t) : ProcessWrapper :=
  mkWrapper o None platform_is_win32 [] None false
    (match WrapperOptions.label o with
     | Some l => if String.eqb l "" then basename (WrapperOptions.command o) else l
     | None => basename (WrapperOptions.command o)
     end)
    (default false (WrapperOptions.verbose o)).

Definition new_World (p : ProcessWrapper) : World :=
  mkWorld p [] [] 0%nat [] None None [].

Definition prefix (w : World) : string := "[reliable-mcp:" +:+ label (this w) +:+ "]".

Definition log (message : string) (level : Level) : M unit :=
  w <- get ;;
  if verbose (this w) || (if level is error then true else false) then
    match level with
    | error => console stderr (prefix w +:+ " " +:+ message)
    | debug =>
        if verbose (this w)
        then console stdout (prefix w +:+ " [DEBUG] " +:+ message)
        else console stdout (prefix w +:+ " " +:+ message)
    | info => console stdout (prefix w +:+ " " +:+ message)
    end
  else ret tt.

(** The 'error' listener of the child (start, lines 63-65). *)
Definition on_child_error (msg : string) : M unit :=
  log ("Process error: " +:+ msg) error.

(** [this.child.kill(signal)], with Node's semantics of [ChildProcess.kill]. *)
Definition mark_killed (p : ProcessWrapper) : ProcessWrapper :=
  set_child (match child p with
             | Some c => Some (ChildProcess.mk (ChildProcess.pid c) true)
             | None => None
             end) p.

Definition child_kill (signal : string) (env : Env) : M bool :=
  w <- get ;;
  match child (this w) with
  | None => throw "TypeError: Cannot read properties of null (reading 'kill')"
  | Some _ =>
      modify (emit (Kill signal)) ;;
      match kill_result env with
      | KillDelivered => modify (with_this mark_killed) ;; ret true
      | KillNotDelivered => ret false
      | KillEmitsError msg => on_child_error msg ;; ret false
      | KillThrows msg => throw msg
      end
  end.

(** [treeKill(pid, 'SIGTERM', callback)]: the callback comes back later, as an
    event of its own. *)
Definition treeKill (pid : option Z) (signal : string) (env : Env) : M unit :=
  modify (emit (TreeKill pid signal)) ;;
  match treeKill_throws env with
  | Some msg => throw msg
  | None => modify (fun w => set_treeKills (S (treeKills w)) w)
  end.

(** JavaScript truthiness of [number | undefined] and of an object reference. *)
Definition truthy (n : option Z) : bool :=
  match n with Some z => negb (z =? 0)%Z | None => false end.
Definition non_null {A} (o : option A) : bool :=
  match o with Some _ => true | None => false end.

(** A number or [null] / [undefined] inside a template string. *)
Definition show (n : option Z) (absent : string) : string :=
  match n with Some z => pretty z | None => absent end.

(** [get pid()]: [this.child?.pid] *)
Definition pid (w : World) : option Z :=
  match child (this w) with Some c => ChildProcess.pid c | None => None end.

(** [get killed()]: [this.terminated || (this.child?.killed || false)] *)
Definition killed (w : World) : bool :=
  terminated (this w) ||
  match child (this w) with Some c => ChildProcess.killed c | None => false end.

Definition terminate (signal : string) (env : Env) : M unit :=
  w <- get ;;
  if terminated (this w) || negb (non_null (child (this w))) || negb (truthy (pid w))
  then ret tt
  else
    modify (with_this (set_terminated true)) ;;
    log ("Terminating process tree (PID: " +:+ show (pid w) "undefined" +:+ ")...") info ;;
    try_catch
      (if isWindows (this w)
       then treeKill (pid w) "SIGTERM" env
       else (child_kill signal env ;; setTimeout ForceKillTimer 3000))
      (fun msg => log ("Error terminating process: " +:+ msg) error).

(** The tree-kill callback (terminate, lines 161-171). *)
Definition on_treeKill_done (err : option string) (env : Env) : M unit :=
  match err with
  | Some msg =>
      log ("Error terminating process tree: " +:+ msg) error ;;
      try_catch
        (w <- get ;;
         if non_null (child (this w)) then (child_kill "SIGKILL" env ;; ret tt) else ret tt)
        (fun _ => ret tt)
  | None => ret tt
  end.

(** The force-kill timer (terminate, lines 177-181). *)
Definition on_forceKill_timer (env : Env) : M unit :=
  w <- get ;;
  match child (this w) with
  | Some c => if negb (ChildProcess.killed c) then (child_kill "SIGKILL" env ;; ret tt) else ret tt
  | None => ret tt
  end.

(** The timeout timer (start, lines 94-99). *)
Definition on_timeout (env : Env) : M unit :=
  w <- get ;;
  if negb (terminated (this w)) && non_null (child (this w)) then
    log ("Process timeout after " +:+ show (WrapperOptions.timeout (options (this w))) "undefined"
         +:+ "ms, terminating...") error ;;
    terminate "SIGTERM" env
  else ret tt.

(** The handlers of [setupCleanupHandlers]. *)
Definition signal_handler (signal : string) (env : Env) : M unit :=
  log ("Received " +:+ signal +:+ ", terminating child process...") info ;;
  terminate "SIGTERM" env ;;
  setTimeout SignalExitTimer 5000.

Definition exception_handler (msg : string) (env : Env) : M unit :=
  log ("Uncaught exception: " +:+ msg) error ;;
  terminate "SIGTERM" env ;;
  setTimeout ExceptionExitTimer 1000.

Definition exit_handler (env : Env) : M unit :=
  terminate "SIGTERM" env.

Definition call_handler (h : Handler) (arg : string) (env : Env) : M unit :=
  match h_kind h with
  | SignalHandler signal => signal_handler signal env
  | ExceptionHandler => exception_handler arg env
  | ExitHandler => exit_handler env
  end.

(** [array.forEach(f)] *)
Fixpoint for_each {A} (f : A -> M unit) (l : list A) : M unit :=
  match l with
  | [] => ret tt
  | x :: l' => f x ;; for_each f l'
  end.

(** [process.emit(event, arg)]: the listeners of the event, in the order they
    were registered. *)
Definition call_all (hs : list (string * Handler)) (arg : string) (env : Env) : M unit :=
  for_each (fun x => call_handler (snd x) arg env) hs.

Definition listeners_of (event : string) (w : World) : list (string * Handler) :=
  filter (fun x => String.eqb event (fst x) = true) (listeners w).

Definition process_emit (event : string) (arg : string) (env : Env) : M unit :=
  w <- get ;; call_all (listeners_of event w) arg env.

(** [process.exit(code)]: the 'exit' listeners run once, then the host is
    gone. *)
Definition process_exit (code : Z) (env : Env) : M unit :=
  w <- get ;;
  modify (emit (ProcessExit code)) ;;
  match exiting w with
  | Some _ => ret tt
  | None => modify (set_exiting (Some code)) ;; process_emit "exit" "" env
  end.

Definition on_signalExit_timer (env : Env) : M unit :=
  w <- get ;;
  if negb (terminated (this w)) then process_exit 0 env else ret tt.

Definition on_exceptionExit_timer (env : Env) : M unit :=
  process_exit 1 env.

Definition setupCleanupHandlers : M unit :=
  w <- get ;;
  let k := length (runs w) in
  let signals := (["SIGINT"; "SIGTERM"; "SIGHUP"] ++
                  (if isWindows (this w) then ["SIGBREAK"] else []))%list in
  let register (event : string) (h : Handler) : M unit :=
    process_on event h ;;
    modify (with_this (fun p => set_cleanupHandlers (cleanupHandlers p ++ [(event, h)]) p)) in
  for_each (fun signal => register signal (mkHandler k (SignalHandler signal))) signals ;;
  register "uncaughtException" (mkHandler k ExceptionHandler) ;;
  register "exit" (mkHandler k ExitHandler).

Definition cleanup : M unit :=
  w <- get ;;
  for_each (fun x => process_removeListener (fst x) (snd x)) (cleanupHandlers (this w)) ;;
  modify (with_this (set_cleanupHandlers [])) ;;
  modify (with_this (set_child None)) ;;
  modify (with_this (set_terminated true)).

(** [resolve(value)] of the promise of run [k]: a promise settles once. *)
Definition settled (k : nat) (value : Z) (rs : list Run) : list Run :=
  match rs !! k with
  | Some r =>
      match outcome r with
      | None => <[k := mkRun (exitListening r) (Some value)]> rs
      | Some _ => rs
      end
  | None => rs
  end.

Definition resolve (k : nat) (value : Z) : M unit :=
  modify (fun w => set_runs (settled k value (runs w)) w).

(** [code || 0] *)
Definition code_or_0 (code : option Z) : Z :=
  match code with Some c => if (c =? 0)%Z then 0 else c | None => 0 end.

(** The 'exit' listener of the child of run [k] (start, lines 86-90). *)
Definition on_child_exit (k : nat) (code : option Z) (signal : option string) : M unit :=
  log ("Process exited with code " +:+ show code "null" +:+ ", signal "
       +:+ default "null" signal) debug ;;
  cleanup ;;
  resolve k (code_or_0 code).

(** What [spawn] does: a child with a pid, a child without one (the 'error'
    event follows), or an exception. *)
Inductive SpawnResult :=
  | Spawned (pid : Z)
  | SpawnErrored
  | SpawnThrows (msg : string).

Definition spawn (r : SpawnResult) : M ChildProcess.t :=
  w <- get ;;
  let o := options (this w) in
  modify (emit (Spawn (WrapperOptions.command o)
                      (default [] (WrapperOptions.args o))
                      (match WrapperOptions.windowsHide o with Some false => false | _ => true end)
                      (if isWindows (this w) then false
                       else default false (WrapperOptions.detached o)))) ;;
  match r with
  | Spawned p => ret (ChildProcess.mk (Some p) false)
  | SpawnErrored => ret (ChildProcess.mk None false)
  | SpawnThrows msg => throw msg
  end.

(** [start] is an async function: [Throw] is a rejected promise, [Ok k] is the
    promise of run [k] ([this.exitPromise]). *)
Definition start (sp : SpawnResult) : M nat :=
  w <- get ;;
  if non_null (child (this w)) then throw "Process already started"
  else
    let o := options (this w) in
    log ("Starting process: " +:+ WrapperOptions.command o +:+ " "
         +:+ String.concat " " (default [] (WrapperOptions.args o))) debug ;;
    c <- spawn sp ;;
    modify (with_this (set_child (Some c))) ;;
    (* this.child.on('error', ...): see [step], [ChildError] *)
    w1 <- get ;;
    (if isWindows (this w1) && truthy (pid w1)
     then modify (set_title (Some ("reliable-mcp: " +:+ label (this w1) +:+ " [PID:"
                                   +:+ show (pid w1) "undefined" +:+ "]")))
     else ret tt) ;;
    setupCleanupHandlers ;;
    (* new Promise((resolve) => ...) *)
    w2 <- get ;;
    let k := length (runs w2) in
    (if negb (non_null (child (this w2)))
     then modify (set_runs (runs w2 ++ [mkRun false (Some (-1))]))
     else
       modify (set_runs (runs w2 ++ [mkRun true None])) ;;
       match WrapperOptions.timeout o with
       | Some t => if truthy (Some t) then setTimeout TimeoutTimer t else ret tt
       | None => ret tt
       end) ;;
    modify (with_this (set_exitPromise (Some k))) ;;
    ret k.

(** ** The event loop *)

Inductive Event :=
  | CallStart (sp : SpawnResult)                  (* wrapper.start() *)
  | CallTerminate (signal : option string)        (* wrapper.terminate(signal?) *)
  | ProcessSignal (signal : string)               (* a signal reaches the host *)
  | UncaughtException (msg : string)              (* a fault in the host *)
  | HostExit (code : Z)                           (* the host shuts down: process.exit *)
  | ChildExit (k : nat) (code : option Z) (signal : option string)
  | ChildError (k : nat) (msg : string)
  | TimerFires (i : nat)                          (* the i-th pending timer *)
  | TreeKillDone (err : option string).           (* tree-kill calls back *)

Definition timer_callback (t : Timer) (env : Env) : M unit :=
  match t with
  | TimeoutTimer => on_timeout env
  | ForceKillTimer => on_forceKill_timer env
  | SignalExitTimer => on_signalExit_timer env
  | ExceptionExitTimer => on_exceptionExit_timer env
  end.

(** An exception nobody caught: the 'uncaughtException' listeners, or Node's
    default (exit with code 1). *)
Definition uncaught (msg : string) (env : Env) (w : World) : World :=
  match listeners_of "uncaughtException" w with
  | [] => snd (process_exit 1 env w)
  | hs => snd (call_all hs msg env w)
  end.

Definition settle (env : Env) (r : Result unit * World) : World :=
  match r with
  | (Ok _, w) => w
  | (Throw msg, w) => uncaught msg env w
  end.

(** One event.  Nothing runs once the host has exited.  A signal without a
    listener is left to its default disposition, which is outside the
    model. *)
Definition step (env : Env) (e : Event) (w : World) : World :=
  match exiting w with
  | Some _ => w
  | None =>
      match e with
      | CallStart sp => snd (start sp w)
      | CallTerminate signal => snd (terminate (default "SIGTERM" signal) env w)
      | ProcessSignal signal => settle env (process_emit signal "" env w)
      | UncaughtException msg => uncaught msg env w
      | HostExit code => settle env (process_exit code env w)
      | ChildExit k code signal =>
          match runs w !! k with
          | Some r => if exitListening r then settle env (on_child_exit k code signal w) else w
          | None => w
          end
      | ChildError k msg =>
          match runs w !! k with
          | Some _ => settle env (on_child_error msg w)
          | None => w
          end
      | TimerFires i =>
          match timers w !! i with
          | Some t => settle env (timer_callback t env (set_timers (delete i (timers w)) w))
          | None => w
          end
      | TreeKillDone err =>
          match treeKills w with
          | S n => settle env (on_treeKill_done err env (set_treeKills n w))
          | O => w
          end
      end
  end.

Definition run (evs : list (Env * Event)) (w : World) : World :=
  foldl (fun w ee => step (fst ee) (snd ee) w) w evs.

(** ** Vocabulary of the properties *)

(** [quiet w w'] bounds what every callback other than [start] and the child's
    'exit' listener can do to the world: claim the latch, have the [killed]
    flag of the child set, arm timers, call into the runtime.  The
    registrations, the promises and the identity of the child stay. *)
Definition child_le (c c' : option ChildProcess.t) : Prop :=
  match c, c' with
  | None, None => True
  | Some a, Some b =>
      ChildProcess.pid b = ChildProcess.pid a /\
      (ChildProcess.killed a = true -> ChildProcess.killed b = true)
  | _, _ => False
  end.

Record quiet (w w' : World) : Prop := mkQuiet {
  q_options : options (this w') = options (this w);
  q_isWindows : isWindows (this w') = isWindows (this w);
  q_label : label (this w') = label (this w);
  q_verbose : verbose (this w') = verbose (this w);
  q_exitPromise : exitPromise (this w') = exitPromise (this w);
  q_cleanupHandlers : cleanupHandlers (this w') = cleanupHandlers (this w);
  q_listeners : listeners w' = listeners w;
  q_runs : runs w' = runs w;
  q_title : title w' = title w;
  q_terminated : terminated (this w) = true -> terminated (this w') = true;
  q_child : child_le (child (this w)) (child (this w'))
}.

(** A callback all of whose runs are quiet. *)
Definition Quiet {A} (m : M A) : Prop := forall w, quiet w (snd (m w)).

(** The events that neither start a child nor report its exit. *)
Definition ordinary (e : Event) : bool :=
  match e with
  | CallStart _ | ChildExit _ _ _ => false
  | _ => true
  end.

(** [Safe m]: the callback returns, it never throws. *)
Definition Safe {A} (m : M A) : Prop := forall w, exists a, fst (m w) = Ok a.

(** The guard of [terminate], negated. *)
Definition can_kill (w : World) : bool :=
  negb (terminated (this w)) && non_null (child (this w)) && truthy (pid w).

(** The call that opens the kill sequence. *)
Definition kill_call (w : World) (signal : string) : Action :=
  if isWindows (this w) then TreeKill (pid w) "SIGTERM" else Kill signal.

(** The registrations of run [k], in the order of [setupCleanupHandlers]. *)
Definition registered (win : bool) (k : nat) : list (string * Handler) :=
  (map (fun signal => (signal, mkHandler k (SignalHandler signal)))
       (["SIGINT"; "SIGTERM"; "SIGHUP"] ++ (if win then ["SIGBREAK"] else [])) ++
   [("uncaughtException", mkHandler k ExceptionHandler);
    ("exit", mkHandler k ExitHandler)])%list.

Definition spawn_pid (sp : SpawnResult) : option Z :=
  match sp with Spawned p => Some p | _ => None end.

Definition spawn_returns (sp : SpawnResult) : bool :=
  match sp with SpawnThrows _ => false | _ => true end.

Definition armed (o : WrapperOptions.t) : list Timer :=
  if truthy (WrapperOptions.timeout o) then [TimeoutTimer] else [].

(** What a call of [start] that gets its child leaves behind. *)
Record started (sp : SpawnResult) (w w' : World) : Prop := mkStarted {
  st_options : options (this w') = options (this w);
  st_isWindows : isWindows (this w') = isWindows (this w);
  st_label : label (this w') = label (this w);
  st_verbose : verbose (this w') = verbose (this w);
  st_terminated : terminated (this w') = terminated (this w);
  st_exiting : exiting w' = exiting w;
  st_treeKills : treeKills w' = treeKills w;
  st_child : child (this w') = Some (ChildProcess.mk (spawn_pid sp) false);
  st_exitPromise : exitPromise (this w') = Some (length (runs w));
  st_runs : runs w' = (runs w ++ [mkRun true None])%list;
  st_listeners :
    listeners w' = (listeners w ++ registered (isWindows (this w)) (length (runs w)))%list;
  st_cleanupHandlers :
    cleanupHandlers (this w') =
    (cleanupHandlers (this w) ++ registered (isWindows (this w)) (length (runs w)))%list;
  st_timers : timers w' = (timers w ++ armed (options (this w)))%list
}.

(** The [removeListener] calls among the effects. *)
Definition removals (l : list Action) : list (string * Handler) :=
  omap (fun a => match a with RemoveListener e h => Some (e, h) | _ => None end) l.
Arguments removals : simpl never.

Definition remove_all (hs ls : list (string * Handler)) : list (string * Handler) :=
  foldl (fun acc x => remove_last x acc) ls hs.

(** What the 'exit' listener of run [k] leaves behind. *)
Record exited (k : nat) (code : option Z) (w w' : World) : Prop := mkExited {
  ex_options : options (this w') = options (this w);
  ex_isWindows : isWindows (this w') = isWindows (this w);
  ex_label : label (this w') = label (this w);
  ex_verbose : verbose (this w') = verbose (this w);
  ex_exitPromise : exitPromise (this w') = exitPromise (this w);
  ex_exiting : exiting w' = exiting w;
  ex_timers : timers w' = timers w;
  ex_treeKills : treeKills w' = treeKills w;
  ex_child : child (this w') = None;
  ex_terminated : terminated (this w') = true;
  ex_cleanupHandlers : cleanupHandlers (this w') = [];
  ex_listeners : listeners w' = remove_all (cleanupHandlers (this w)) (listeners w);
  ex_runs : runs w' = settled k (code_or_0 code) (runs w);
  ex_removals :
    removals (effects w') = (removals (effects w) ++ cleanupHandlers (this w))%list
}.

(** Every step is quiet, or a call of [start] that got a child, or the 'exit'
    listener of a child. *)
Inductive step_kind (e : Event) (w w' : World) : Prop :=
  | step_quiet : quiet w w' -> step_kind e w w'
  | step_started sp :
      e = CallStart sp -> exiting w = None -> child (this w) = None ->
      started sp w w' -> step_kind e w w'
  | step_exited k code signal r :
      e = ChildExit k code signal -> exiting w = None ->
      runs w !! k = Some r -> exitListening r = true ->
      exited k code w w' -> step_kind e w w'.

(** The value the promise of run [k] has settled to, if any. *)
Definition resolved (k : nat) (w : World) : option Z :=
  match runs w !! k with Some r => outcome r | None => None end.

(** Run [k] has its 'exit' listener and its promise is pending. *)
Definition pending (k : nat) (w : World) : Prop :=
  runs w !! k = Some (mkRun true None).

Definition is_exit_of (k : nat) (e : Event) : bool :=
  match e with ChildExit k' _ _ => Nat.eqb k k' | _ => false end.

Definition is_exit (e : Event) : bool :=
  match e with ChildExit _ _ _ => true | _ => false end.

Definition is_start (e : Event) : bool :=
  match e with CallStart _ => true | _ => false end.

(** The registrations on [process] are exactly the ones the wrapper remembers
    in [cleanupHandlers]: none without a child, the ones of one run with a
    child. *)
Definition tidy (w : World) : Prop :=
  listeners w = cleanupHandlers (this w) /\
  match child (this w) with
  | None => listeners w = []
  | Some _ => exists k, listeners w = registered (isWindows (this w)) k
  end.

(** A settled promise implies a set latch. *)
Definition settled_latched (w : World) : Prop :=
  forall k v, resolved k w = Some v -> terminated (this w) = true.

(** The child handle is there and carries Node's [killed] flag. *)
Definition flagged (w : World) : Prop :=
  exists c, child (this w) = Some c /\ ChildProcess.killed c = true.

(** ** Scenarios *)

(** The commands of the scenarios have no directory part. *)
Definition as_is (command : string) : string := command.

Definition sleep (win : bool) (timeout : option Z) : World :=
  new_World (new_ProcessWrapper as_is win
               (WrapperOptions.mk "sleep" (Some ["10"]) None None timeout None None)).

(** The operating system delivers every signal. *)
Definition delivering : Env := mkEnv KillDelivered None.

(** The synchronous failure of the kill call of [terminate], if any. *)
Definition kill_failure (w : World) (env : Env) : option string :=
  if isWindows (this w) then treeKill_throws env
  else match kill_result env with KillThrows msg => Some msg | _ => None end.

(** ** The command line (src/cli.ts, runWrapper) *)

Module Cli.

(** The result of [parseInt]. *)
Inductive JsNumber := Num (z : Z) | NaN.

(** [options.shell]: undefined, true, or the name of a shell. *)
Inductive ShellOption := ShellUnset | ShellTrue | ShellPath (path : string).

Record Options := mk {
  label : option string;
  timeout : option JsNumber;
  cwd : option string;
  verbose : bool;
  detached : bool;
  shell : ShellOption;
  windowsHide : bool
}.

(** The initial [options] object of [runWrapper]. *)
Definition defaults : Options := mk None None None false false ShellUnset true.

Definition set_label (v : option string) (o : Options) : Options :=
  mk v (timeout o) (cwd o) (verbose o) (detached o) (shell o) (windowsHide o).
Definition set_timeout (v : option JsNumber) (o : Options) : Options :=
  mk (label o) v (cwd o) (verbose o) (detached o) (shell o) (windowsHide o).
Definition set_cwd (v : option string) (o : Options) : Options :=
  mk (label o) (timeout o) v (verbose o) (detached o) (shell o) (windowsHide o).
Definition set_verbose (v : bool) (o : Options) : Options :=
  mk (label o) (timeout o) (cwd o) v (detached o) (shell o) (windowsHide o).
Definition set_detached (v : bool) (o : Options) : Options :=
  mk (label o) (timeout o) (cwd o) (verbose o) v (shell o) (windowsHide o).
Definition set_shell (v : ShellOption) (o : Options) : Options :=
  mk (label o) (timeout o) (cwd o) (verbose o) (detached o) v (windowsHide o).
Definition set_windowsHide (v : bool) (o : Options) : Options :=
  mk (label o) (timeout o) (cwd o) (verbose o) (detached o) (shell o) v.

(** [case 'a': case 'b':] on an argument that may be undefined. *)
Definition one_of (names : list string) (arg : option string) : bool :=
  match arg with
  | Some a => existsb (String.eqb a) names
  | None => false
  end.

(** [next && !next.startsWith('-')] *)
Definition names_a_shell (next : option string) : bool :=
  match next with
  | Some s => negb (String.eqb s "") && negb (String.prefix "-" s)
  | None => false
  end.

(** The body of the option loop: the options after the [switch], and whether
    the case did an [i++] of its own.  [parseInt] is JavaScript's, taken as a
    parameter (its argument is undefined when there is no next argument). *)
Definition parse_step (parseInt : option string -> JsNumber)
    (arg next : option string) (o : Options) : Options * nat :=
  if one_of ["-l"; "--label"] arg then (set_label next o, 1%nat)
  else if one_of ["-t"; "--timeout"] arg then (set_timeout (Some (parseInt next)) o, 1%nat)
  else if one_of ["-c"; "--cwd"] arg then (set_cwd next o, 1%nat)
  else if one_of ["-v"; "--verbose"] arg then (set_verbose true o, 0%nat)
  else if one_of ["-d"; "--detached"] arg then (set_detached true o, 0%nat)
  else if one_of ["-s"; "--shell"] arg then
    if names_a_shell next
    then (set_shell (match next with Some s => ShellPath s | None => ShellTrue end) o, 1%nat)
    else (set_shell ShellTrue o, 0%nat)
  else if one_of ["--no-hide"] arg then (set_windowsHide false o, 0%nat)
  else (o, 0%nat).

(** [for (let i = 2; i < dashIndex; i++) { ... }], from a given [i].  Every
    turn moves [i] up, so [dashIndex] turns are enough. *)
Fixpoint parse_loop (parseInt : option string -> JsNumber) (fuel : nat)
    (argv : list string) (dashIndex i : nat) (o : Options) : Options :=
  match fuel with
  | O => o
  | S fuel' =>
      if (i <? dashIndex)%nat then
        let (o', skip) := parse_step parseInt (argv !! i) (argv !! (i + 1)%nat) o in
        parse_loop parseInt fuel' argv dashIndex (i + skip + 1)%nat o'
      else o
  end.

(** [array.indexOf(x)]; [None] is -1. *)
Fixpoint indexOf (x : string) (l : list string) : option nat :=
  match l with
  | [] => None
  | y :: l' => if String.eqb y x then Some O else option_map S (indexOf x l')
  end.

(** How [runWrapper] goes on after reading the command line. *)
Inductive Outcome :=
  | UsageError      (* 'Error: No command specified after --', process.exit(1) *)
  | EmptyCommand    (* 'Error: Command cannot be empty', process.exit(1) *)
  | Launch (o : Options) (command : string) (args : list string).

(** [runWrapper], up to the construction of the wrapper. *)
Definition runWrapper (parseInt : option string -> JsNumber) (argv : list string) : Outcome :=
  match indexOf "--" argv with
  | None => UsageError
  | Some dashIndex =>
      if (dashIndex =? length argv - 1)%nat then UsageError
      else
        let options := parse_loop parseInt dashIndex argv dashIndex 2 defaults in
        match drop (dashIndex + 1) argv with
        | [] => EmptyCommand
        | command :: args =>
            if String.eqb command "" then EmptyCommand else Launch options command args
        end
  end.

(** The npx look-up on Windows.  [npxCmd] and [npxBat] are the two candidate
    paths, [existsSync] is Node's. *)
Definition resolve_command (win : bool) (npxCmd npxBat : string) (existsSync : string -> bool)
    (command : string) : string :=
  if win && String.eqb command "npx" then
    if existsSync npxCmd then npxCmd
    else if existsSync npxBat then npxBat
    else command
  else command.

(** The options [runWrapper] hands to [new ProcessWrapper].  A [timeout] that
    is NaN is falsy like an absent one, and the wrapper only tests it. *)
Definition wrapper_options (basename : string -> string) (resolved : string)
    (o : Options) (command : string) (args : list string) : WrapperOptions.t :=
  WrapperOptions.mk resolved (Some args) (Some (windowsHide o)) (Some (detached o))
    (match timeout o with Some (Num z) => Some z | _ => None end)
    (Some (match label o with
           | Some l => if String.eqb l "" then basename command else l
           | None => basename command
           end))
    (Some (verbose o)).

(** The arguments that are not the name of an option taking a value. *)
Definition plain (arg : string) : bool :=
  negb (one_of ["-l"; "--label"; "-t"; "--timeout"; "-c"; "--cwd"; "-s"; "--shell"] (Some arg)).

(** What a plain argument does to the options. *)
Definition flag (o : Options) (arg : string) : Options :=
  if one_of ["-v"; "--verbose"] (Some arg) then set_verbose true o
  else if one_of ["-d"; "--detached"] (Some arg) then set_detached true o
  else if one_of ["--no-hide"] (Some arg) then set_windowsHide false o
  else o.

(** The options that take the next argument as their value, whatever it is,
    and what they do with it. *)
Definition valued (arg : string) : bool :=
  one_of ["-l"; "--label"; "-t"; "--timeout"; "-c"; "--cwd"] (Some arg).

Definition assign (parseInt : option string -> JsNumber) (arg value : string)
    (o : Options) : Options :=
  if one_of ["-l"; "--label"] (Some arg) then set_label (Some value) o
  else if one_of ["-t"; "--timeout"] (Some arg) then set_timeout (Some (parseInt (Some value))) o
  else set_cwd (Some value) o.

(** What [runWrapper] does once [await wrapper.start()] has given [exitCode]
    (the rest of the [try] block), and what its [catch] block does with the
    message of the error.  The colours are chalk's. *)
Definition after_start (chalk_green : string -> string) (o : Options) (exitCode : Z)
    (env : Env) : M unit :=
  (if verbose o
   then console stdout (chalk_green ("[reliable-mcp] Process exited with code "
                                     +:+ pretty exitCode))
   else ret tt) ;;
  process_exit exitCode env.

Definition catch_start (chalk_red : string -> string) (message : string) (env : Env) : M unit :=
  console stderr (chalk_red ("[reliable-mcp] Error: " +:+ message)) ;;
  process_exit 1 env.

Definition is_shell_option (arg : string) : bool := one_of ["-s"; "--shell"] (Some arg).
Definition is_verbose_flag (arg : string) : bool := one_of ["-v"; "--verbose"] (Some arg).
Definition is_detached_flag (arg : string) : bool := one_of ["-d"; "--detached"] (Some arg).
Definition is_no_hide_flag (arg : string) : bool := one_of ["--no-hide"] (Some arg).

End Cli.

(** ** Vocabulary of the further properties *)

(** The signals [setupCleanupHandlers] registers a handler for. *)
Definition relayed_signals (win : bool) : list string :=
  (["SIGINT"; "SIGTERM"; "SIGHUP"] ++ (if win then ["SIGBREAK"] else []))%list.

(** What a callback that does not call [process.exit] does to the host: the
    exit state is as before, and calls into the runtime are only added. *)
Definition steady (w w' : World) : Prop :=
  exiting w' = exiting w /\ exists new, effects w' = (effects w ++ new)%list.

(** The events [setupCleanupHandlers] registers a handler for, and the handler
    of each. *)
Definition handled_events (win : bool) : list string :=
  (relayed_signals win ++ ["uncaughtException"; "exit"])%list.

Definition handler_kind (event : string) : HandlerKind :=
  if String.eqb event "uncaughtException" then ExceptionHandler
  else if String.eqb event "exit" then ExitHandler
  else SignalHandler event.

(** [Along R m]: every run of the callback relates the world before to the
    world after by [R]. *)
Definition Along (R : World -> World -> Prop) {A} (m : M A) : Prop :=
  forall w, R w (snd (m w)).

(** The calls into the runtime a wrapper with the given options, platform and
    verbosity makes. *)
Definition allowed (o : WrapperOptions.t) (win verbose : bool) (a : Action) : Prop :=
  match a with
  | Console stdout _ => verbose = true
  | Console stderr _ => True
  | Spawn command args windowsHide detached =>
      command = WrapperOptions.command o /\
      args = default [] (WrapperOptions.args o) /\
      windowsHide = (match WrapperOptions.windowsHide o with Some false => false | _ => true end) /\
      detached = (if win then false else default false (WrapperOptions.detached o))
  | Kill signal => win = true -> signal = "SIGKILL"
  | TreeKill _ signal => win = true /\ signal = "SIGTERM"
  | ProcessOn event _ => In event (handled_events win)
  | RemoveListener _ _ => True
  | SetTimeout TimeoutTimer ms => WrapperOptions.timeout o = Some ms /\ ms <> 0
  | SetTimeout ForceKillTimer ms => win = false /\ ms = 3000
  | SetTimeout SignalExitTimer ms => ms = 5000
  | SetTimeout ExceptionExitTimer ms => ms = 1000
  | ProcessExit _ => True
  end.

(** The configuration stays and the new calls into the runtime are allowed
    ones. *)
Definition conforms (w w' : World) : Prop :=
  options (this w') = options (this w) /\
  isWindows (this w') = isWindows (this w) /\
  verbose (this w') = verbose (this w) /\
  exists new, effects w' = (effects w ++ new)%list /\
              Forall (allowed (options (this w)) (isWindows (this w)) (verbose (this w))) new.

(** ** Reasoning about callbacks *)

Lemma child_le_refl c : child_le c c.
Proof. destruct c; simpl; auto. Qed.

Lemma child_le_trans c1 c2 c3 : child_le c1 c2 -> child_le c2 c3 -> child_le c1 c3.
Proof.
  destruct c1, c2, c3; simpl; try tauto.
  intros [H1 H2] [H3 H4]. split; [congruence | auto].
Qed.

Lemma quiet_refl w : quiet w w.
Proof. constructor; auto using child_le_refl. Qed.

Lemma quiet_trans w1 w2 w3 : quiet w1 w2 -> quiet w2 w3 -> quiet w1 w3.
Proof.
  intros [] []. constructor; try congruence; eauto using child_le_trans.
Qed.

Lemma Quiet_ret {A} (a : A) : Quiet (ret a).
Proof. intros w. apply quiet_refl. Qed.

Lemma Quiet_throw {A} msg : Quiet (@throw A msg).
Proof. intros w. apply quiet_refl. Qed.

Lemma Quiet_get : Quiet get.
Proof. intros w. apply quiet_refl. Qed.

Lemma Quiet_bind {A B} (m : M A) (f : A -> M B) :
  Quiet m -> (forall a, Quiet (f a)) -> Quiet (bind m f).
Proof.
  intros Hm Hf w. unfold bind. specialize (Hm w).
  destruct (m w) as [[a|msg] w1]; simpl in *; [|exact Hm].
  eapply quiet_trans; [exact Hm | apply Hf].
Qed.

Lemma Quiet_try_catch {A} (m : M A) (h : string -> M A) :
  Quiet m -> (forall msg, Quiet (h msg)) -> Quiet (try_catch m h).
Proof.
  intros Hm Hh w. unfold try_catch. specialize (Hm w).
  destruct (m w) as [[a|msg] w1]; simpl in *; [exact Hm|].
  eapply quiet_trans; [exact Hm | apply Hh].
Qed.

Lemma Quiet_modify (f : World -> World) : (forall w, quiet w (f w)) -> Quiet (modify f).
Proof. intros H w. apply H. Qed.

Lemma quiet_emit a w : quiet w (emit a w).
Proof. constructor; auto using child_le_refl. Qed.

Lemma quiet_set_timers l w : quiet w (set_timers l w).
Proof. constructor; auto using child_le_refl. Qed.

Lemma quiet_set_treeKills n w : quiet w (set_treeKills n w).
Proof. constructor; auto using child_le_refl. Qed.

Lemma quiet_set_exiting e w : quiet w (set_exiting e w).
Proof. constructor; auto using child_le_refl. Qed.

Lemma quiet_claim w : quiet w (with_this (set_terminated true) w).
Proof. constructor; auto using child_le_refl. Qed.

Lemma Quiet_console s line : Quiet (console s line).
Proof. apply Quiet_modify, quiet_emit. Qed.

Lemma Quiet_setTimeout t ms : Quiet (setTimeout t ms).
Proof.
  apply Quiet_modify. intros w.
  eapply quiet_trans; [apply quiet_emit | apply quiet_set_timers].
Qed.

Lemma quiet_mark_killed w : quiet w (with_this mark_killed w).
Proof.
  constructor; auto. simpl. destruct (child (this w)); simpl; auto.
Qed.

Create HintDb quiet.
#[local] Hint Resolve Quiet_ret Quiet_throw Quiet_get Quiet_console Quiet_setTimeout
  quiet_emit quiet_set_exiting quiet_claim quiet_mark_killed quiet_set_treeKills : quiet.

(** Splits a callback along its binds and branches. *)
Ltac quiet_tac :=
  repeat first
    [ solve [auto with quiet]
    | match goal with
      | |- Quiet (bind _ _) => apply Quiet_bind; [|intros ?]
      | |- Quiet (try_catch _ _) => apply Quiet_try_catch; [|intros ?]
      | |- Quiet (modify _) => apply Quiet_modify; intros ?
      | |- Quiet (if ?b then _ else _) => destruct b
      | |- Quiet (match ?x with _ => _ end) => destruct x
      | |- Quiet (let _ := _ in _) => cbv zeta
      end ].

Lemma Quiet_log message level : Quiet (log message level).
Proof. unfold log. quiet_tac. Qed.
#[local] Hint Resolve Quiet_log : quiet.

Lemma Quiet_on_child_error msg : Quiet (on_child_error msg).
Proof. unfold on_child_error. quiet_tac. Qed.
#[local] Hint Resolve Quiet_on_child_error : quiet.

Lemma Quiet_child_kill signal env : Quiet (child_kill signal env).
Proof. unfold child_kill. quiet_tac. Qed.

Lemma Quiet_treeKill p signal env : Quiet (treeKill p signal env).
Proof. unfold treeKill. quiet_tac. Qed.
#[local] Hint Resolve Quiet_child_kill Quiet_treeKill : quiet.

Lemma Quiet_terminate signal env : Quiet (terminate signal env).
Proof. unfold terminate. quiet_tac. Qed.
#[local] Hint Resolve Quiet_terminate : quiet.

Lemma Quiet_on_treeKill_done err env : Quiet (on_treeKill_done err env).
Proof. unfold on_treeKill_done. quiet_tac. Qed.

Lemma Quiet_on_forceKill_timer env : Quiet (on_forceKill_timer env).
Proof. unfold on_forceKill_timer. quiet_tac. Qed.

Lemma Quiet_on_timeout env : Quiet (on_timeout env).
Proof. unfold on_timeout. quiet_tac. Qed.

Lemma Quiet_call_handler h arg env : Quiet (call_handler h arg env).
Proof.
  unfold call_handler, signal_handler, exception_handler, exit_handler. quiet_tac.
Qed.
#[local] Hint Resolve Quiet_call_handler : quiet.

Lemma Quiet_for_each {A} (f : A -> M unit) l : (forall x, Quiet (f x)) -> Quiet (for_each f l).
Proof. intros Hf. induction l; simpl; quiet_tac. Qed.

Lemma Quiet_call_all hs arg env : Quiet (call_all hs arg env).
Proof. apply Quiet_for_each. auto with quiet. Qed.
#[local] Hint Resolve Quiet_call_all : quiet.

Lemma Quiet_process_emit event arg env : Quiet (process_emit event arg env).
Proof. unfold process_emit. quiet_tac. Qed.
#[local] Hint Resolve Quiet_process_emit : quiet.

Lemma Quiet_process_exit code env : Quiet (process_exit code env).
Proof. unfold process_exit. quiet_tac. Qed.
#[local] Hint Resolve Quiet_process_exit : quiet.

Lemma Quiet_timer_callback t env : Quiet (timer_callback t env).
Proof.
  destruct t; simpl; auto using Quiet_on_timeout, Quiet_on_forceKill_timer.
  - unfold on_signalExit_timer. quiet_tac.
  - unfold on_exceptionExit_timer. quiet_tac.
Qed.

Lemma quiet_uncaught msg env w : quiet w (uncaught msg env w).
Proof.
  unfold uncaught. destruct (listeners_of "uncaughtException" w).
  - apply Quiet_process_exit.
  - apply Quiet_call_all.
Qed.

Lemma quiet_settle env (m : M unit) w : Quiet m -> quiet w (settle env (m w)).
Proof.
  intros Hm. specialize (Hm w). unfold settle.
  destruct (m w) as [[[]|msg] w1]; simpl in *; auto.
  eapply quiet_trans; [exact Hm | apply quiet_uncaught].
Qed.

Lemma quiet_step env e w : ordinary e = true -> quiet w (step env e w).
Proof.
  intros He. unfold step. destruct (exiting w); [apply quiet_refl|].
  destruct e; try discriminate.
  - apply Quiet_terminate.
  - apply quiet_settle, Quiet_process_emit.
  - apply quiet_uncaught.
  - apply quiet_settle, Quiet_process_exit.
  - destruct (runs w !! k); [|apply quiet_refl].
    apply quiet_settle, Quiet_on_child_error.
  - destruct (timers w !! i); [|apply quiet_refl].
    eapply quiet_trans; [apply (quiet_set_timers (delete i (timers w)))|].
    apply quiet_settle, Quiet_timer_callback.
  - destruct (treeKills w); [apply quiet_refl|].
    eapply quiet_trans; [apply (quiet_set_treeKills n)|].
    apply quiet_settle, Quiet_on_treeKill_done.
Qed.

Lemma Safe_ret {A} (a : A) : Safe (ret a).
Proof. intros w. now exists a. Qed.

Lemma Safe_get : Safe get.
Proof. intros w. now exists w. Qed.

Lemma Safe_modify f : Safe (modify f).
Proof. intros w. now exists tt. Qed.

Lemma Safe_bind {A B} (m : M A) (f : A -> M B) :
  Safe m -> (forall a, Safe (f a)) -> Safe (bind m f).
Proof.
  intros Hm Hf w. unfold bind. destruct (Hm w) as [a Ha].
  destruct (m w) as [[a'|msg] w1]; simpl in *; [apply Hf | discriminate].
Qed.

Lemma Safe_try_catch {A} (m : M A) (h : string -> M A) :
  (forall msg, Safe (h msg)) -> Safe (try_catch m h).
Proof.
  intros Hh w. unfold try_catch.
  destruct (m w) as [[a|msg] w1]; simpl; [now exists a | apply Hh].
Qed.

Lemma Safe_console s line : Safe (console s line).
Proof. apply Safe_modify. Qed.

Lemma Safe_setTimeout t ms : Safe (setTimeout t ms).
Proof. apply Safe_modify. Qed.

Create HintDb safe.
#[local] Hint Resolve Safe_ret Safe_get Safe_modify Safe_console Safe_setTimeout : safe.

Ltac safe_tac :=
  repeat first
    [ solve [auto with safe]
    | match goal with
      | |- Safe (bind _ _) => apply Safe_bind; [|intros ?]
      | |- Safe (try_catch _ _) => apply Safe_try_catch; intros ?
      | |- Safe (if ?b then _ else _) => destruct b
      | |- Safe (match ?x with _ => _ end) => destruct x
      | |- Safe (let _ := _ in _) => cbv zeta
      end ].

Lemma Safe_log message level : Safe (log message level).
Proof. unfold log. safe_tac. Qed.
#[local] Hint Resolve Safe_log : safe.

Lemma Safe_terminate signal env : Safe (terminate signal env).
Proof. unfold terminate. safe_tac. Qed.
#[local] Hint Resolve Safe_terminate : safe.

Lemma Safe_on_treeKill_done err env : Safe (on_treeKill_done err env).
Proof. unfold on_treeKill_done. safe_tac. Qed.

Lemma Safe_unit (m : M unit) w : Safe m -> fst (m w) = Ok tt.
Proof. intros H. destruct (H w) as [[] Ha]. exact Ha. Qed.

(** *** [terminate] *)

Lemma guard_can_kill w :
  terminated (this w) || negb (non_null (child (this w))) || negb (truthy (pid w))
  = negb (can_kill w).
Proof.
  unfold can_kill.
  destruct (terminated (this w)), (non_null (child (this w))), (truthy (pid w)); reflexivity.
Qed.

Lemma terminate_skips signal env w :
  can_kill w = false -> terminate signal env w = (Ok tt, w).
Proof.
  intros H. unfold terminate, bind, get. rewrite guard_can_kill, H. reflexivity.
Qed.

Lemma terminate_latched signal env w :
  terminated (this w) = true -> terminate signal env w = (Ok tt, w).
Proof.
  intros H. apply terminate_skips. unfold can_kill. now rewrite H.
Qed.

(** Evaluation of a callback on a world given by its fields. *)
Ltac open_world w :=
  destruct w as [[? [[? ?]|] ? ? ? ? ? ?] ? ? ? ? ? ? ?].

Lemma terminate_kills signal env w :
  can_kill w = true ->
  let w1 := snd (terminate signal env w) in
  terminated (this w1) = true /\
  exists new, effects w1 = (effects w ++ new)%list /\ In (kill_call w signal) new.
Proof.
  intros H. unfold terminate, bind, get. rewrite guard_can_kill, H.
  open_world w; destruct env as [kr tk];
    repeat match goal with b : bool |- _ => destruct b end;
    cbn in H; try discriminate;
    destruct kr, tk; cbv -[show String.append app In];
    (split; [reflexivity|]); rewrite <- ?app_assoc; eexists; (split; [reflexivity|]);
    simpl; tauto.
Qed.

(** *** [start] *)

Lemma start_already sp w :
  non_null (child (this w)) = true -> start sp w = (Throw "Process already started", w).
Proof. intros H. unfold start, bind, get. rewrite H. reflexivity. Qed.

Lemma start_spawns sp w :
  child (this w) = None -> spawn_returns sp = true ->
  fst (start sp w) = Ok (length (runs w)) /\ started sp w (snd (start sp w)).
Proof.
  intros Hc Hsp. open_world w; [discriminate|]. clear Hc.
  destruct sp; try discriminate;
    match goal with o : WrapperOptions.t |- _ => destruct o as [? ? ? ? [t|] ? ?] end;
    repeat match goal with b : bool |- _ => destruct b end;
    unfold start, setupCleanupHandlers, registered; cbn [app];
    do 2 (cbv -[show String.append String.concat app length Z.eqb]; cbn [app]);
    (split; [|constructor]);
    cbv -[show String.append String.concat app length Z.eqb];
    repeat match goal with |- context [Z.eqb ?a ?b] => destruct (Z.eqb a b) end;
    cbn; rewrite <- ?app_assoc, ?app_nil_r; reflexivity.
Qed.

Lemma start_spawn_throws msg w :
  child (this w) = None ->
  fst (start (SpawnThrows msg) w) = Throw msg /\ quiet w (snd (start (SpawnThrows msg) w)).
Proof.
  intros Hc. open_world w; [discriminate|]. clear Hc.
  repeat match goal with b : bool |- _ => destruct b end;
    cbv -[show String.append String.concat app length Z.eqb];
    (split; [reflexivity|]); constructor; simpl; auto.
Qed.

(** *** [cleanup] and the 'exit' listener *)

Lemma for_each_removeListener hs w :
  for_each (fun x => process_removeListener (fst x) (snd x)) hs w =
  (Ok tt,
   mkWorld (this w) (remove_all hs (listeners w)) (timers w) (treeKills w) (runs w)
           (title w) (exiting w)
           (effects w ++ map (fun x => RemoveListener (fst x) (snd x)) hs)).
Proof.
  revert w. induction hs as [|[e h] hs IH]; intros w.
  - destruct w; simpl. now rewrite app_nil_r.
  - simpl. unfold bind at 1. unfold process_removeListener at 1. unfold modify.
    rewrite IH. simpl. now rewrite <- app_assoc.
Qed.

Lemma removals_app l1 l2 : removals (l1 ++ l2) = (removals l1 ++ removals l2)%list.
Proof. apply omap_app. Qed.

Lemma removals_map hs : removals (map (fun x => RemoveListener (fst x) (snd x)) hs) = hs.
Proof.
  induction hs as [|[e h] hs IH]; [reflexivity|].
  change (removals (map _ (_ :: hs))) with ((e, h) :: removals (map (fun x => RemoveListener (fst x) (snd x)) hs)).
  now f_equal.
Qed.

Lemma log_cases message level w :
  log message level w = (Ok tt, w) \/
  exists s line, log message level w = (Ok tt, emit (Console s line) w).
Proof.
  unfold log, bind, get.
  destruct (verbose (this w)), level; simpl; eauto.
Qed.

Lemma on_child_exit_spec k code signal w :
  fst (on_child_exit k code signal w) = Ok tt /\
  exited k code w (snd (on_child_exit k code signal w)).
Proof.
  unfold on_child_exit, cleanup, bind, get, modify, resolve.
  match goal with
  | |- context [log ?m ?l w] => destruct (log_cases m l w) as [E|(s & line & E)]; rewrite !E
  end;
    rewrite !for_each_removeListener; simpl;
    (split; [reflexivity|]); constructor; simpl; auto;
    rewrite !removals_app, removals_map; try reflexivity;
    change (removals [Console s line]) with (@nil (string * Handler)); now rewrite app_nil_r.
Qed.

(** *** One step of the event loop *)

Lemma step_child_exit env k code signal r w :
  exiting w = None -> runs w !! k = Some r -> exitListening r = true ->
  exited k code w (step env (ChildExit k code signal) w).
Proof.
  intros Hex Hr Hl. unfold step. rewrite Hex, Hr, Hl.
  destruct (on_child_exit_spec k code signal w) as [Hok Hx].
  destruct (on_child_exit k code signal w) as [[[]|] w1]; simpl in *;
    [exact Hx | discriminate].
Qed.

Lemma step_cases env e w : step_kind e w (step env e w).
Proof.
  destruct (ordinary e) eqn:Ho; [now apply step_quiet, quiet_step|].
  destruct (exiting w) eqn:Ex; [unfold step; rewrite Ex; apply step_quiet, quiet_refl|].
  destruct e; try discriminate.
  - unfold step. rewrite Ex. destruct (child (this w)) as [c|] eqn:Ec.
    + rewrite start_already by now rewrite Ec. apply step_quiet, quiet_refl.
    + destruct (spawn_returns sp) eqn:Esp.
      * eapply step_started; eauto. now apply start_spawns.
      * destruct sp; try discriminate. apply step_quiet. now apply start_spawn_throws.
  - destruct (runs w !! k) as [r|] eqn:Er;
      [|unfold step; rewrite Ex, Er; apply step_quiet, quiet_refl].
    destruct (exitListening r) eqn:El;
      [|unfold step; rewrite Ex, Er, El; apply step_quiet, quiet_refl].
    eapply step_exited; eauto using step_child_exit.
Qed.

(** The latch is never released. *)
Lemma step_latched env e w :
  terminated (this w) = true -> terminated (this (step env e w)) = true.
Proof.
  intros H. destruct (step_cases env e w) as [Hq|sp _ _ _ Hs|k code signal r _ _ _ _ Hx].
  - now apply Hq.
  - now rewrite (st_terminated _ _ _ Hs).
  - apply (ex_terminated _ _ _ _ Hx).
Qed.

Lemma run_latched evs w :
  terminated (this w) = true -> terminated (this (run evs w)) = true.
Proof.
  revert w. induction evs as [|[env e] evs IH]; intros w H; simpl; [exact H|].
  apply IH, step_latched, H.
Qed.

(** *** Promises *)

Lemma settled_other k k' v rs : k <> k' -> settled k' v rs !! k = rs !! k.
Proof.
  intros Hk. unfold settled. destruct (rs !! k') as [r|]; [|reflexivity].
  destruct (outcome r); [reflexivity|]. apply list_lookup_insert_ne. congruence.
Qed.

Lemma settled_resolved k k' v v' rs :
  (match rs !! k with Some r => outcome r | None => None end) = Some v ->
  (match settled k' v' rs !! k with Some r => outcome r | None => None end) = Some v.
Proof.
  intros H. destruct (decide (k = k')) as [<-|Hk]; [|now rewrite settled_other].
  unfold settled. destruct (rs !! k) as [r|] eqn:Er; [|discriminate].
  simpl in H. rewrite H. now rewrite Er.
Qed.

Lemma settled_pending k v rs :
  rs !! k = Some (mkRun true None) ->
  (match settled k v rs !! k with Some r => outcome r | None => None end) = Some v.
Proof.
  intros H. unfold settled. rewrite H. simpl.
  rewrite list_lookup_insert_eq; [reflexivity|]. now apply lookup_lt_Some in H.
Qed.

Lemma step_pending env e k w :
  is_exit_of k e = false -> pending k w -> pending k (step env e w).
Proof.
  unfold pending. intros He H.
  destruct (step_cases env e w) as [Hq|sp _ _ _ Hs|k' code signal r -> _ _ _ Hx].
  - now rewrite (q_runs _ _ Hq).
  - rewrite (st_runs _ _ _ Hs). now apply lookup_app_l_Some.
  - rewrite (ex_runs _ _ _ _ Hx), settled_other; [exact H|].
    simpl in He. now apply Nat.eqb_neq in He.
Qed.

Lemma run_pending evs k w :
  Forall (fun ee => is_exit_of k (snd ee) = false) evs -> pending k w -> pending k (run evs w).
Proof.
  intros Hevs. revert w. induction Hevs as [|[env e] evs He _ IH]; intros w H; simpl; [exact H|].
  apply IH, step_pending; assumption.
Qed.

(** A promise settles once: later events do not change its value. *)
Lemma step_resolved env e k v w :
  resolved k w = Some v -> resolved k (step env e w) = Some v.
Proof.
  unfold resolved. intros H.
  destruct (step_cases env e w) as [Hq|sp _ _ _ Hs|k' code signal r _ _ _ _ Hx].
  - now rewrite (q_runs _ _ Hq).
  - rewrite (st_runs _ _ _ Hs).
    destruct (runs w !! k) as [r|] eqn:Er; [|discriminate].
    now rewrite (lookup_app_l_Some _ _ _ _ Er).
  - rewrite (ex_runs _ _ _ _ Hx). now apply settled_resolved.
Qed.

Lemma run_resolved evs k v w :
  resolved k w = Some v -> resolved k (run evs w) = Some v.
Proof.
  revert w. induction evs as [|[env e] evs IH]; intros w H; simpl; [exact H|].
  apply IH, step_resolved, H.
Qed.

(** The 'exit' event of run [k], delivered while its promise is pending,
    settles the promise to [code || 0]. *)
Lemma exit_settles env k code signal w :
  exiting w = None -> pending k w ->
  resolved k (step env (ChildExit k code signal) w) = Some (code_or_0 code).
Proof.
  intros Hex Hp.
  pose proof (step_child_exit env k code signal _ w Hex Hp eq_refl) as Hx.
  unfold resolved. rewrite (ex_runs _ _ _ _ Hx). now apply settled_pending.
Qed.

(** *** Invariants of the reachable worlds *)

Lemma same_listener_refl x : same_listener x x = true.
Proof.
  destruct x as [e [k kind]]. unfold same_listener, same_handler. simpl.
  rewrite String.eqb_refl, Nat.eqb_refl. destruct kind; simpl; auto using String.eqb_refl.
Qed.

Lemma same_listener_event x y : fst x <> fst y -> same_listener x y = false.
Proof.
  intros H. unfold same_listener. destruct (String.eqb_spec (fst x) (fst y)); [tauto|reflexivity].
Qed.

Lemma remove_first_last x l :
  (forall y, In y l -> fst x <> fst y) -> remove_first x (l ++ [x]) = l.
Proof.
  induction l as [|y l IH]; intros H; simpl.
  - now rewrite same_listener_refl.
  - rewrite same_listener_event by (apply H; now left).
    f_equal. apply IH. intros z Hz. apply H. now right.
Qed.

Lemma remove_last_head x l :
  (forall y, In y l -> fst x <> fst y) -> remove_last x (x :: l) = l.
Proof.
  intros H. unfold remove_last. simpl. rewrite remove_first_last.
  - apply rev_involutive.
  - intros y Hy. apply H. now apply in_rev.
Qed.

(** Removing every registration of a list with pairwise different events from
    that list leaves nothing. *)
Lemma remove_all_self l : NoDup (map fst l) -> remove_all l l = [].
Proof.
  induction l as [|x l IH]; intros Hnd; [reflexivity|].
  simpl in Hnd. apply NoDup_cons in Hnd as [Hx Hnd].
  unfold remove_all. simpl. rewrite remove_last_head; [now apply IH|].
  intros y Hy Heq. apply Hx. rewrite Heq. apply list_elem_of_In, in_map, Hy.
Qed.

Lemma registered_events win k :
  map fst (registered win k) =
  (["SIGINT"; "SIGTERM"; "SIGHUP"] ++ (if win then ["SIGBREAK"] else []) ++
   ["uncaughtException"; "exit"])%list.
Proof. destruct win; reflexivity. Qed.

Lemma remove_all_registered win k : remove_all (registered win k) (registered win k) = [].
Proof.
  apply remove_all_self. rewrite registered_events.
  destruct win; apply (bool_decide_unpack _); vm_compute; exact I.
Qed.

Lemma tidy_new p : child p = None -> cleanupHandlers p = [] -> tidy (new_World p).
Proof. intros Hc Hh. split; simpl; [now rewrite Hh | now rewrite Hc]. Qed.

Lemma step_tidy env e w : tidy w -> tidy (step env e w).
Proof.
  intros [Hl Hc].
  destruct (step_cases env e w) as [Hq|sp _ _ Hn Hs|k code signal r _ _ _ _ Hx].
  - split.
    + now rewrite (q_listeners _ _ Hq), (q_cleanupHandlers _ _ Hq).
    + pose proof (q_child _ _ Hq) as Hch.
      rewrite (q_listeners _ _ Hq), (q_isWindows _ _ Hq).
      destruct (child (this w)), (child (this (step env e w))); simpl in Hch; tauto.
  - rewrite Hn in Hc. split.
    + now rewrite (st_listeners _ _ _ Hs), (st_cleanupHandlers _ _ _ Hs), Hl.
    + rewrite (st_child _ _ _ Hs), (st_listeners _ _ _ Hs), (st_isWindows _ _ _ Hs), Hc.
      now exists (length (runs w)).
  - assert (listeners (step env e w) = []) as Hnil.
    { rewrite (ex_listeners _ _ _ _ Hx), <- Hl.
      destruct (child (this w)); [|now rewrite Hc].
      destruct Hc as [k' ->]. apply remove_all_registered. }
    split.
    + now rewrite (ex_cleanupHandlers _ _ _ _ Hx).
    + now rewrite (ex_child _ _ _ _ Hx).
Qed.

Lemma run_tidy evs w : tidy w -> tidy (run evs w).
Proof.
  revert w. induction evs as [|[env e] evs IH]; intros w H; simpl; [exact H|].
  apply IH, step_tidy, H.
Qed.

Lemma step_settled_latched env e w : settled_latched w -> settled_latched (step env e w).
Proof.
  intros H k v. unfold resolved.
  destruct (step_cases env e w) as [Hq|sp _ _ _ Hs|k' code signal r _ _ _ _ Hx].
  - rewrite (q_runs _ _ Hq). intros Hr. apply Hq. now apply (H k v).
  - rewrite (st_runs _ _ _ Hs), (st_terminated _ _ _ Hs). intros Hr.
    apply (H k v). unfold resolved.
    destruct (decide (k < length (runs w))%nat) as [Hlt|Hge].
    + now rewrite lookup_app_l in Hr.
    + rewrite lookup_app_r in Hr by lia.
      destruct (k - length (runs w))%nat as [|n]; simpl in Hr; discriminate.
  - intros _. apply (ex_terminated _ _ _ _ Hx).
Qed.

Lemma run_settled_latched evs w : settled_latched w -> settled_latched (run evs w).
Proof.
  revert w. induction evs as [|[env e] evs IH]; intros w H; simpl; [exact H|].
  apply IH, step_settled_latched, H.
Qed.

Lemma step_flagged env e w : is_exit e = false -> flagged w -> flagged (step env e w).
Proof.
  intros He (c & Hc & Hk).
  destruct (step_cases env e w) as [Hq|sp _ _ Hn _|k code signal r -> _ _ _ _].
  - pose proof (q_child _ _ Hq) as Hch. rewrite Hc in Hch. unfold flagged.
    destruct (child (this (step env e w))) as [c'|]; simpl in Hch; [|tauto].
    exists c'. split; [reflexivity | now apply Hch].
  - congruence.
  - discriminate.
Qed.

Lemma run_flagged evs w :
  Forall (fun ee => is_exit (snd ee) = false) evs -> flagged w -> flagged (run evs w).
Proof.
  intros Hevs. revert w. induction Hevs as [|[env e] evs He _ IH]; intros w H; simpl; [exact H|].
  apply IH, step_flagged; assumption.
Qed.

(** ** Properties *)

(** *** Termination is claimed once *)

(** C1, as stated, fails: an invocation that finds no child returns without
    setting the latch, so a later one can still open the kill sequence.  Here
    [terminate] is called before [start] and again after it: the first call
    does nothing, the second one finds the latch unset and kills. *)
Lemma terminate_before_start_then_kills :
  let w0 := sleep false None in
  let w1 := snd (terminate "SIGTERM" delivering w0) in
  let w2 := step delivering (CallStart (Spawned 4242)) w1 in
  w1 = w0 /\
  terminated (this w2) = false /\
  effects (snd (terminate "SIGTERM" delivering w2)) =
    (effects w2 ++ [Kill "SIGTERM"; SetTimeout ForceKillTimer 3000])%list.
Proof. vm_compute. auto. Qed.

(** C1 (amended): an invocation of [terminate] opens the kill sequence
    (tree-kill on Windows, [child.kill] on Unix) exactly when it finds a child
    with a pid and the latch unset; otherwise it changes nothing, the latch
    included.  After an invocation that opened the kill sequence, whatever
    events follow, every further invocation finds the latch set and returns
    with the world unchanged: at most one invocation kills. *)
Theorem terminate_at_most_one_kill_sequence (w : World) (signal : string) (env : Env) :
  let w1 := snd (terminate signal env w) in
  if can_kill w then
    terminated (this w1) = true /\
    (exists new, effects w1 = (effects w ++ new)%list /\ In (kill_call w signal) new) /\
    (forall evs signal' env',
       terminated (this (run evs w1)) = true /\
       terminate signal' env' (run evs w1) = (Ok tt, run evs w1))
  else terminate signal env w = (Ok tt, w).
Proof.
  intros w1. destruct (can_kill w) eqn:Hk; [|now apply terminate_skips].
  destruct (terminate_kills signal env w Hk) as [Ht Hnew].
  repeat split; try assumption.
  - now apply run_latched.
  - now apply terminate_latched, run_latched.
Qed.

(** C5: [terminate] returns normally in every state, for every signal and
    whatever the kill calls do; so does the tree-kill callback.  When the kill
    call of an invocation that opened the kill sequence throws, the failure is
    written to the error stream, and so is the error tree-kill calls back
    with. *)
Theorem terminate_never_throws (w : World) (signal : string) (env : Env) :
  fst (terminate signal env w) = Ok tt /\
  (forall err, fst (on_treeKill_done err env w) = Ok tt) /\
  match kill_failure w env with
  | Some msg =>
      if can_kill w
      then In (Console stderr (prefix w +:+ " " +:+ "Error terminating process: " +:+ msg))
              (effects (snd (terminate signal env w)))
      else snd (terminate signal env w) = w
  | None => True
  end /\
  (forall msg,
     In (Console stderr (prefix w +:+ " " +:+ "Error terminating process tree: " +:+ msg))
        (effects (snd (on_treeKill_done (Some msg) env w)))).
Proof.
  split; [apply Safe_unit, Safe_terminate|].
  split; [intros err; apply Safe_unit, Safe_on_treeKill_done|].
  split.
  - destruct (kill_failure w env) as [msg|] eqn:Hf; [|exact I].
    destruct (can_kill w) eqn:Hk; [|now rewrite terminate_skips].
    unfold terminate, bind, get. rewrite guard_can_kill, Hk.
    unfold kill_failure in Hf.
    open_world w; destruct env as [kr tk];
      repeat match goal with b : bool |- _ => destruct b end;
      cbn in Hk; try discriminate; cbn in Hf; subst;
      try (destruct kr; try discriminate; injection Hf as ->);
      cbv -[show String.append app In];
      rewrite ?in_app_iff; simpl; tauto.
  - intros msg. open_world w; destruct env as [kr tk];
      repeat match goal with b : bool |- _ => destruct b end;
      destruct kr; cbv -[show String.append app In];
      rewrite ?in_app_iff; simpl; tauto.
Qed.

(** *** What [start] resolves to *)

Lemma started_pending sp w :
  child (this w) = None -> spawn_returns sp = true ->
  pending (length (runs w)) (snd (start sp w)).
Proof.
  intros Hc Hsp. destruct (start_spawns sp w Hc Hsp) as [_ Hs].
  unfold pending. rewrite (st_runs _ _ _ Hs).
  rewrite lookup_app_r by lia. now rewrite Nat.sub_diag.
Qed.

(** C2: [start] on a wrapper without a child spawns and returns the promise of
    the new run.  Whatever events come before the child exits, the promise is
    pending until then; when the child exits normally with code [C] the
    promise resolves to exactly [C], zero or not, and keeps that value. *)
Theorem start_resolves_to_exit_code
    (w : World) (p : Z) (evs : list (Env * Event)) (env : Env) (C : Z)
    (evs' : list (Env * Event)) :
  child (this w) = None ->
  let k := length (runs w) in
  let w1 := run evs (snd (start (Spawned p) w)) in
  Forall (fun ee => is_exit_of k (snd ee) = false) evs ->
  exiting w1 = None ->
  fst (start (Spawned p) w) = Ok k /\
  resolved k w1 = None /\
  resolved k (step env (ChildExit k (Some C) None) w1) = Some C /\
  resolved k (run evs' (step env (ChildExit k (Some C) None) w1)) = Some C.
Proof.
  intros Hc k w1 Hevs Hex.
  assert (pending k w1) as Hp by (apply run_pending, started_pending; auto).
  assert (resolved k (step env (ChildExit k (Some C) None) w1) = Some C) as Hr.
  { rewrite exit_settles by assumption. unfold code_or_0.
    destruct (Z.eqb_spec C 0); congruence. }
  repeat split.
  - now apply start_spawns.
  - unfold resolved. now rewrite Hp.
  - exact Hr.
  - now apply run_resolved.
Qed.

Lemma start_resolves_to_exit_code_witness :
  let w1 := run [] (snd (start (Spawned 4242) (sleep false None))) in
  resolved 0 (step delivering (ChildExit 0 (Some 3) None) w1) = Some 3.
Proof.
  exact (proj1 (proj2 (proj2
    (start_resolves_to_exit_code (sleep false None) 4242 [] delivering 3 []
       (@eq_refl _ None) (Forall_nil_2 _) (@eq_refl _ None))))).
Defined.

(** C3, as stated, fails: a child killed by SIGTERM (exit event with a null
    code) makes [start] resolve to 0, the very value of a successful exit. *)
Lemma signal_exit_resolves_to_zero :
  let w1 := run [(delivering, CallStart (Spawned 4242)); (delivering, CallTerminate None)]
                (sleep false None) in
  resolved 0 (step delivering (ChildExit 0 None (Some "SIGTERM")) w1) = Some 0 /\
  resolved 0 (step delivering (ChildExit 0 (Some 0) None) w1) = Some 0.
Proof. vm_compute. auto. Qed.

(** C3 (amended): when the child terminates due to a signal (exit event with a
    null code and a signal), [start] resolves to 0 ([code || 0]): the same
    value as for a successful normal exit, not a non-zero sentinel. *)
Theorem signal_exit_resolves_like_success
    (w : World) (p : Z) (evs : list (Env * Event)) (env : Env) (signal : string) :
  child (this w) = None ->
  let k := length (runs w) in
  let w1 := run evs (snd (start (Spawned p) w)) in
  Forall (fun ee => is_exit_of k (snd ee) = false) evs ->
  exiting w1 = None ->
  resolved k (step env (ChildExit k None (Some signal)) w1) = Some 0 /\
  resolved k (step env (ChildExit k None (Some signal)) w1) =
  resolved k (step env (ChildExit k (Some 0) None) w1).
Proof.
  intros Hc k w1 Hevs Hex.
  assert (pending k w1) as Hp by (apply run_pending, started_pending; auto).
  now rewrite !exit_settles by assumption.
Qed.

Lemma signal_exit_resolves_like_success_witness :
  let w1 := run [(delivering, CallTerminate None)]
                (snd (start (Spawned 4242) (sleep false None))) in
  resolved 0 (step delivering (ChildExit 0 None (Some "SIGTERM")) w1) = Some 0.
Proof.
  exact (proj1
    (signal_exit_resolves_like_success (sleep false None) 4242
       [(delivering, CallTerminate None)] delivering "SIGTERM"
       (@eq_refl _ None)
       (Forall_cons_2 _ (delivering, CallTerminate None) _ (@eq_refl _ false) (Forall_nil_2 _))
       (@eq_refl _ None))).
Defined.

(** C9: the code at the failing input.  When the executable cannot be spawned
    the child has no pid and emits 'error'; the 'error' listener only logs.
    As long as no 'exit' event of that child arrives (Node emits none after a
    failed spawn) the promise [start] returned stays pending, whatever else
    happens: [start] never resolves. *)
Theorem spawn_failure_never_resolves
    (w : World) (msg : string) (evs : list (Env * Event)) :
  child (this w) = None ->
  let k := length (runs w) in
  Forall (fun ee => is_exit_of k (snd ee) = false) evs ->
  fst (start SpawnErrored w) = Ok k /\
  resolved k (run ((delivering, ChildError k msg) :: evs) (snd (start SpawnErrored w))) = None.
Proof.
  intros Hc k Hevs. split; [now apply start_spawns|].
  assert (pending k (run ((delivering, ChildError k msg) :: evs) (snd (start SpawnErrored w))))
    as Hp.
  { apply run_pending; [|now apply started_pending].
    constructor; [reflexivity | exact Hevs]. }
  unfold resolved. now rewrite Hp.
Qed.

Lemma spawn_failure_never_resolves_witness :
  resolved 0
    (run [(delivering, ChildError 0 "spawn this-command-does-not-exist-12345 ENOENT");
          (delivering, ProcessSignal "SIGINT");
          (delivering, TimerFires 0)]
         (snd (start SpawnErrored (sleep false None)))) = None.
Proof.
  exact (proj2
    (spawn_failure_never_resolves (sleep false None)
       "spawn this-command-does-not-exist-12345 ENOENT"
       [(delivering, ProcessSignal "SIGINT"); (delivering, TimerFires 0)]
       (@eq_refl _ None)
       (Forall_cons_2 _ (delivering, ProcessSignal "SIGINT") _ (@eq_refl _ false)
          (Forall_cons_2 _ (delivering, TimerFires 0) _ (@eq_refl _ false)
             (Forall_nil_2 _))))).
Defined.

(** C10: in every world the wrapper can reach, once the promise of a run has
    resolved the [killed] query answers true, whether or not [terminate] was
    ever invoked: the 'exit' listener runs [cleanup], which sets the latch,
    before it resolves. *)
Theorem killed_once_resolved
    (basename : string -> string) (win : bool) (o : WrapperOptions.t)
    (evs : list (Env * Event)) (k : nat) (v : Z) :
  let w := run evs (new_World (new_ProcessWrapper basename win o)) in
  resolved k w = Some v -> killed w = true.
Proof.
  intros w Hr. unfold killed.
  assert (settled_latched w) as H.
  { apply run_settled_latched. intros k' v'. unfold resolved. simpl. discriminate. }
  now rewrite (H k v Hr).
Qed.

Lemma killed_once_resolved_witness :
  killed (run [(delivering, CallStart (Spawned 4242));
               (delivering, ChildExit 0 (Some 0) None)]
              (new_World (new_ProcessWrapper as_is false
                 (WrapperOptions.mk "sleep" (Some ["10"]) None None None None None)))) = true.
Proof.
  exact (killed_once_resolved as_is false
           (WrapperOptions.mk "sleep" (Some ["10"]) None None None None None)
           [(delivering, CallStart (Spawned 4242)); (delivering, ChildExit 0 (Some 0) None)]
           0 0 (@eq_refl _ (Some 0))).
Defined.

(** *** A second [start] *)

(** While the first child has not exited, a second [start] is rejected and
    changes nothing. *)
Lemma start_twice_rejected (w : World) (sp sp' : SpawnResult) :
  child (this w) = None -> spawn_returns sp = true ->
  let w1 := snd (start sp w) in
  start sp' w1 = (Throw "Process already started", w1).
Proof.
  intros Hc Hsp w1. apply start_already.
  destruct (start_spawns sp w Hc Hsp) as [_ Hs]. subst w1.
  now rewrite (st_child _ _ _ Hs).
Qed.

(** C4: the code at the failing input.  The guard of [start] tests
    [this.child], which [cleanup] resets to null when the child exits.  A
    second [start] after the exit is therefore not rejected: it spawns a second
    child and registers the handlers again.  The latch stays set, so
    [terminate] can never kill that second child. *)
Theorem start_after_exit_spawns_again
    (w : World) (env : Env) (k : nat) (code : option Z) (signal : option string)
    (r : Run) (sp : SpawnResult) :
  exiting w = None -> runs w !! k = Some r -> exitListening r = true ->
  spawn_returns sp = true ->
  let w1 := step env (ChildExit k code signal) w in
  let w2 := snd (start sp w1) in
  fst (start sp w1) = Ok (length (runs w1)) /\
  child (this w2) = Some (ChildProcess.mk (spawn_pid sp) false) /\
  listeners w2 = (listeners w1 ++ registered (isWindows (this w1)) (length (runs w1)))%list /\
  (forall signal' env', terminate signal' env' w2 = (Ok tt, w2)).
Proof.
  intros Hex Hr Hl Hsp w1 w2.
  pose proof (step_child_exit env k code signal r w Hex Hr Hl) as Hx. fold w1 in Hx.
  destruct (start_spawns sp w1 (ex_child _ _ _ _ Hx) Hsp) as [Hok Hs]. fold w2 in Hs.
  repeat split; try assumption.
  - apply (st_child _ _ _ Hs).
  - apply (st_listeners _ _ _ Hs).
  - intros signal' env'. apply terminate_latched.
    rewrite (st_terminated _ _ _ Hs). apply (ex_terminated _ _ _ _ Hx).
Qed.

Lemma start_after_exit_spawns_again_witness :
  let w := run [(delivering, CallStart (Spawned 4242))] (sleep false None) in
  let w1 := step delivering (ChildExit 0 (Some 0) None) w in
  fst (start (Spawned 4243) w1) = Ok (length (runs w1)) /\
  child (this (snd (start (Spawned 4243) w1))) = Some (ChildProcess.mk (Some 4243) false).
Proof.
  intros w w1.
  pose proof (start_after_exit_spawns_again w delivering 0 (Some 0) None (mkRun true None)
                (Spawned 4243) (@eq_refl _ None) (@eq_refl _ (Some (mkRun true None)))
                (@eq_refl _ true) (@eq_refl _ true)) as H.
  exact (conj (proj1 H) (proj1 (proj2 H))).
Defined.

(** *** The timeout timer *)

(** C6: once the 'exit' listener of the child has run, the timeout callback,
    whenever it fires afterwards, returns with the world unchanged.  In any
    world, the callback does something only if the latch is unset and the
    child handle is there, the check [terminate] makes as well; and when the
    child is there with a pid and the latch unset, it opens the kill
    sequence. *)
Theorem timeout_after_exit_is_noop
    (w : World) (env : Env) (k : nat) (code : option Z) (signal : option string)
    (r : Run) (evs : list (Env * Event)) (env' : Env) :
  exiting w = None -> runs w !! k = Some r -> exitListening r = true ->
  let w2 := run evs (step env (ChildExit k code signal) w) in
  on_timeout env' w2 = (Ok tt, w2) /\
  (forall w', on_timeout env' w' = (Ok tt, w') \/
              (terminated (this w') = false /\ child (this w') <> None)) /\
  (forall w', can_kill w' = true ->
     exists new, effects (snd (on_timeout env' w')) = (effects w' ++ new)%list /\
                 In (kill_call w' "SIGTERM") new).
Proof.
  intros Hex Hr Hl w2. split; [|split].
  - pose proof (step_child_exit env k code signal r w Hex Hr Hl) as Hx.
    assert (terminated (this w2) = true) as Ht
      by (apply run_latched, (ex_terminated _ _ _ _ Hx)).
    unfold on_timeout, bind, get. now rewrite Ht.
  - intros w'. unfold on_timeout, bind, get.
    destruct (terminated (this w')); [now left|].
    destruct (child (this w')); [right; split; congruence | now left].
  - intros w' Hk. unfold on_timeout, bind, get.
    assert (negb (terminated (this w')) && non_null (child (this w')) = true) as ->.
    { unfold can_kill in Hk. now apply andb_prop in Hk as [-> _]. }
    match goal with
    | |- context [log ?m ?l w'] => destruct (log_cases m l w') as [E|(s & line & E)]; rewrite E
    end.
    + apply (terminate_kills "SIGTERM" env' w' Hk).
    + destruct (terminate_kills "SIGTERM" env' (emit (Console s line) w') Hk)
        as [_ (new & Hnew & Hin)].
      exists (Console s line :: new). split.
      * rewrite Hnew. simpl. now rewrite <- app_assoc.
      * now right.
Qed.

Lemma timeout_after_exit_is_noop_witness :
  let w := run [(delivering, CallStart (Spawned 4242))] (sleep false (Some 500)) in
  let w2 := run [(delivering, ProcessSignal "SIGINT")]
                (step delivering (ChildExit 0 (Some 0) None) w) in
  on_timeout delivering w2 = (Ok tt, w2).
Proof.
  intros w w2.
  exact (proj1
    (timeout_after_exit_is_noop w delivering 0 (Some 0) None (mkRun true None)
       [(delivering, ProcessSignal "SIGINT")] delivering
       (@eq_refl _ None) (@eq_refl _ (Some (mkRun true None))) (@eq_refl _ true))).
Defined.

(** *** Deregistration *)

Lemma step_childless env e w :
  is_start e = false -> child (this w) = None -> child (this (step env e w)) = None.
Proof.
  intros He Hc.
  destruct (step_cases env e w) as [Hq|sp -> _ _ _|k code signal r _ _ _ _ Hx].
  - pose proof (q_child _ _ Hq) as Hch. rewrite Hc in Hch.
    destruct (child (this (step env e w))); simpl in Hch; tauto.
  - discriminate.
  - apply (ex_child _ _ _ _ Hx).
Qed.

Lemma run_childless evs w :
  Forall (fun ee => is_start (snd ee) = false) evs ->
  child (this w) = None -> child (this (run evs w)) = None.
Proof.
  intros Hevs. revert w. induction Hevs as [|[env e] evs He _ IH]; intros w H; simpl; [exact H|].
  apply IH, step_childless; assumption.
Qed.

(** Without a listener a signal runs no callback of the wrapper. *)
Lemma signal_unheard env signal w :
  listeners w = [] -> step env (ProcessSignal signal) w = w.
Proof.
  intros Hl. unfold step. destruct (exiting w); [reflexivity|].
  unfold process_emit, bind, get, listeners_of. now rewrite Hl.
Qed.

(** C7: in every world the wrapper can reach, when the 'exit' event of its
    child is delivered the registrations on [process] are the handlers of
    [setupCleanupHandlers] (SIGINT, SIGTERM, SIGHUP, SIGBREAK on Windows,
    uncaughtException, exit); the 'exit' listener calls [removeListener] once
    for each of them and for nothing else, and leaves no registration and no
    remembered handler behind.  From then on, until [start] is called again, a
    signal delivered to the host runs nothing: the world, effects included, is
    unchanged, so [terminate] is not invoked. *)
Theorem exit_deregisters_every_handler
    (basename : string -> string) (win : bool) (o : WrapperOptions.t)
    (evs : list (Env * Event)) (env : Env) (k : nat) (code : option Z)
    (signal : option string) (r : Run) :
  let w := run evs (new_World (new_ProcessWrapper basename win o)) in
  exiting w = None -> runs w !! k = Some r -> exitListening r = true ->
  let w' := step env (ChildExit k code signal) w in
  (child (this w) <> None -> exists j, listeners w = registered (isWindows (this w)) j) /\
  removals (effects w') = (removals (effects w) ++ listeners w)%list /\
  listeners w' = [] /\
  cleanupHandlers (this w') = [] /\
  (forall evs' env' s,
     Forall (fun ee => is_start (snd ee) = false) evs' ->
     listeners (run evs' w') = [] /\
     step env' (ProcessSignal s) (run evs' w') = run evs' w').
Proof.
  intros w Hex Hr Hl w'.
  assert (tidy w) as [Hlc Hc] by (apply run_tidy, tidy_new; reflexivity).
  pose proof (step_child_exit env k code signal r w Hex Hr Hl) as Hx. fold w' in Hx.
  assert (tidy w') as Ht' by (apply step_tidy; now split).
  assert (forall evs', Forall (fun ee => is_start (snd ee) = false) evs' ->
                       listeners (run evs' w') = []) as Hquiet.
  { intros evs' Hevs'.
    pose proof (run_childless evs' w' Hevs' (ex_child _ _ _ _ Hx)) as Hnone.
    destruct (run_tidy evs' w' Ht') as [_ Hc']. now rewrite Hnone in Hc'. }
  repeat split.
  - intros Hsome. destruct (child (this w)); [exact Hc | congruence].
  - rewrite (ex_removals _ _ _ _ Hx). now rewrite Hlc.
  - apply (Hquiet [] (Forall_nil_2 _)).
  - apply (ex_cleanupHandlers _ _ _ _ Hx).
  - now apply Hquiet.
  - now apply signal_unheard, Hquiet.
Qed.

Lemma exit_deregisters_every_handler_witness :
  let w := run [(delivering, CallStart (Spawned 4242))]
               (new_World (new_ProcessWrapper as_is true
                  (WrapperOptions.mk "sleep" (Some ["10"]) None None None None None))) in
  let w' := step delivering (ChildExit 0 (Some 0) None) w in
  removals (effects w') = (removals (effects w) ++ listeners w)%list /\
  listeners w' = [] /\
  step delivering (ProcessSignal "SIGTERM") (run [] w') = run [] w'.
Proof.
  intros w w'.
  pose proof (exit_deregisters_every_handler as_is true
                (WrapperOptions.mk "sleep" (Some ["10"]) None None None None None)
                [(delivering, CallStart (Spawned 4242))] delivering 0 (Some 0) None
                (mkRun true None)
                (@eq_refl _ None) (@eq_refl _ (Some (mkRun true None))) (@eq_refl _ true))
    as (_ & H1 & H2 & _ & H3).
  exact (conj H1 (conj H2 (proj2 (H3 [] delivering "SIGTERM" (Forall_nil_2 _))))).
Defined.

(** *** The forced kill *)

Lemma terminate_delivered signal env w :
  isWindows (this w) = false -> can_kill w = true -> kill_result env = KillDelivered ->
  let w1 := snd (terminate signal env w) in
  flagged w1 /\ timers w1 = (timers w ++ [ForceKillTimer])%list.
Proof.
  intros Hw Hk Hd. unfold terminate, bind, get. rewrite guard_can_kill, Hk.
  open_world w; destruct env as [kr tk]; simpl in Hw, Hd; subst;
    repeat match goal with b : bool |- _ => destruct b end;
    cbn in Hk; try discriminate;
    cbv -[show String.append app];
    (split; [eexists; split; reflexivity | reflexivity]).
Qed.

Lemma forceKill_timer_flagged env w :
  flagged w -> on_forceKill_timer env w = (Ok tt, w).
Proof.
  intros (c & Hc & Hk). unfold on_forceKill_timer, bind, get. now rewrite Hc, Hk.
Qed.

(** C8: the code at the failing input.  On Unix, when the graceful signal was
    delivered to the child, [child.kill] has set Node's [killed] flag.  The
    force-kill timer is armed, but its callback sends SIGKILL only if that
    flag is unset: for a child that ignores the signal and is still running
    (no 'exit' event) when the timer fires, the callback returns with the
    world unchanged, and no SIGKILL is issued. *)
Theorem forceKill_timer_spares_signalled_child
    (w : World) (signal : string) (env : Env) (evs : list (Env * Event)) (env' : Env) :
  isWindows (this w) = false -> can_kill w = true -> kill_result env = KillDelivered ->
  Forall (fun ee => is_exit (snd ee) = false) evs ->
  let w1 := snd (terminate signal env w) in
  let w2 := run evs w1 in
  In ForceKillTimer (timers w1) /\
  child (this w2) <> None /\
  on_forceKill_timer env' w2 = (Ok tt, w2).
Proof.
  intros Hw Hk Hd Hevs w1 w2.
  destruct (terminate_delivered signal env w Hw Hk Hd) as [Hf Ht]. fold w1 in Hf, Ht.
  assert (flagged w2) as Hf2 by now apply run_flagged.
  repeat split.
  - rewrite Ht. apply in_or_app. right. now left.
  - destruct Hf2 as (c & -> & _). discriminate.
  - now apply forceKill_timer_flagged.
Qed.

Lemma forceKill_timer_spares_signalled_child_witness :
  let w := run [(delivering, CallStart (Spawned 4242))] (sleep false None) in
  let w1 := snd (terminate "SIGTERM" delivering w) in
  let w2 := run [] w1 in
  In ForceKillTimer (timers w1) /\
  child (this w2) <> None /\
  on_forceKill_timer delivering w2 = (Ok tt, w2).
Proof.
  intros w w1 w2.
  exact (forceKill_timer_spares_signalled_child w "SIGTERM" delivering [] delivering
           (@eq_refl _ false) (@eq_refl _ true) (@eq_refl _ KillDelivered) (Forall_nil_2 _)).
Defined.

(** ** Further properties *)

(** *** Callbacks along a preorder *)

Section AlongPreorder.
Variable R : World -> World -> Prop.
Hypothesis R_refl : forall w, R w w.
Hypothesis R_trans : forall w1 w2 w3, R w1 w2 -> R w2 w3 -> R w1 w3.

Lemma Along_ret {A} (a : A) : Along R (ret a).
Proof. intros w. apply R_refl. Qed.

Lemma Along_throw {A} msg : Along R (@throw A msg).
Proof. intros w. apply R_refl. Qed.

Lemma Along_get : Along R get.
Proof. intros w. apply R_refl. Qed.

Lemma Along_bind {A B} (m : M A) (f : A -> M B) :
  Along R m -> (forall a, Along R (f a)) -> Along R (bind m f).
Proof.
  intros Hm Hf w. unfold bind. specialize (Hm w).
  destruct (m w) as [[a|msg] w1]; simpl in *; [|exact Hm].
  eapply R_trans; [exact Hm | apply Hf].
Qed.

Lemma Along_try_catch {A} (m : M A) (h : string -> M A) :
  Along R m -> (forall msg, Along R (h msg)) -> Along R (try_catch m h).
Proof.
  intros Hm Hh w. unfold try_catch. specialize (Hm w).
  destruct (m w) as [[a|msg] w1]; simpl in *; [exact Hm|].
  eapply R_trans; [exact Hm | apply Hh].
Qed.

Lemma Along_modify (f : World -> World) : (forall w, R w (f w)) -> Along R (modify f).
Proof. intros H w. apply H. Qed.

Lemma Along_for_each {A} (f : A -> M unit) l :
  (forall x, Along R (f x)) -> Along R (for_each f l).
Proof.
  intros Hf. induction l as [|x l IH]; simpl; [apply Along_ret|].
  apply Along_bind; [apply Hf | intros _; exact IH].
Qed.

End AlongPreorder.

(** Splits a callback along its binds and branches; [tac] closes the leaves. *)
Ltac along_tac refl trans tac :=
  repeat first
    [ solve [tac]
    | match goal with
      | |- Along _ (ret _) => apply (Along_ret _ refl)
      | |- Along _ (throw _) => apply (Along_throw _ refl)
      | |- Along _ get => apply (Along_get _ refl)
      | |- Along _ (bind _ _) => apply (Along_bind _ trans); [|intros ?]
      | |- Along _ (try_catch _ _) => apply (Along_try_catch _ trans); [|intros ?]
      | |- Along _ (for_each _ _) => apply (Along_for_each _ refl trans); intros ?
      | |- Along _ (modify _) => apply Along_modify; intros ?
      | |- Along _ (if ?b then _ else _) => destruct b
      | |- Along _ (match ?x with _ => _ end) => destruct x
      | |- Along _ (let _ := _ in _) => cbv zeta
      end ].

(** *** The configuration is fixed *)

Lemma step_config env e w :
  options (this (step env e w)) = options (this w) /\
  isWindows (this (step env e w)) = isWindows (this w) /\
  label (this (step env e w)) = label (this w) /\
  verbose (this (step env e w)) = verbose (this w).
Proof.
  destruct (step_cases env e w) as [Hq|sp _ _ _ Hs|k code signal r _ _ _ _ Hx].
  - destruct Hq; auto.
  - destruct Hs; auto.
  - destruct Hx; auto.
Qed.

Lemma run_config evs w :
  options (this (run evs w)) = options (this w) /\
  isWindows (this (run evs w)) = isWindows (this w) /\
  label (this (run evs w)) = label (this w) /\
  verbose (this (run evs w)) = verbose (this w).
Proof.
  revert w. induction evs as [|[env e] evs IH]; intros w; simpl; [auto|].
  destruct (IH (step env e w)) as (-> & -> & -> & ->). apply step_config.
Qed.

(** X1: the label of a wrapper is the [label] option when that is a non-empty
    string and the base name of the command otherwise, and it is the same in
    every world the wrapper reaches. *)
Theorem label_fixed
    (basename : string -> string) (win : bool) (o : WrapperOptions.t)
    (evs : list (Env * Event)) :
  label (this (run evs (new_World (new_ProcessWrapper basename win o)))) =
  match WrapperOptions.label o with
  | Some l => if String.eqb l "" then basename (WrapperOptions.command o) else l
  | None => basename (WrapperOptions.command o)
  end.
Proof.
  destruct (run_config evs (new_World (new_ProcessWrapper basename win o)))
    as (_ & _ & -> & _).
  reflexivity.
Qed.

(** *** The queries *)

Lemma step_pid env e w p :
  is_exit e = false -> pid w = Some p -> pid (step env e w) = Some p.
Proof.
  unfold pid. intros He Hp.
  destruct (child (this w)) as [c|] eqn:Hc; [|discriminate].
  destruct (step_cases env e w) as [Hq|sp _ _ Hn _|k code signal r -> _ _ _ _].
  - pose proof (q_child _ _ Hq) as Hch. rewrite Hc in Hch.
    destruct (child (this (step env e w))) as [c'|]; simpl in Hch; [|tauto].
    destruct Hch as [-> _]. exact Hp.
  - congruence.
  - discriminate.
Qed.

Lemma run_pid evs w p :
  Forall (fun ee => is_exit (snd ee) = false) evs ->
  pid w = Some p -> pid (run evs w) = Some p.
Proof.
  intros Hevs. revert w. induction Hevs as [|[env e] evs He _ IH]; intros w H; simpl; [exact H|].
  apply IH, step_pid; assumption.
Qed.

(** X2: the [pid] query.  It is undefined as long as [start] has not been
    called; from a [start] that spawned a child with pid [p] it answers [p],
    whatever happens, until the 'exit' event of the child; once the 'exit'
    listener has run it is undefined again. *)
Theorem pid_while_child_held
    (w : World) (p : Z) (evs0 evs : list (Env * Event)) (env : Env)
    (code : option Z) (signal : option string) :
  child (this w) = None ->
  Forall (fun ee => is_start (snd ee) = false) evs0 ->
  Forall (fun ee => is_exit (snd ee) = false) evs ->
  let w0 := run evs0 w in
  let w1 := run evs (snd (start (Spawned p) w0)) in
  exiting w1 = None ->
  pid w0 = None /\
  pid w1 = Some p /\
  pid (step env (ChildExit (length (runs w0)) code signal) w1) = None.
Proof.
  intros Hc Hevs0 Hevs w0 w1 Hex.
  assert (child (this w0) = None) as Hc0 by now apply run_childless.
  destruct (start_spawns (Spawned p) w0 Hc0 eq_refl) as [_ Hs].
  split; [unfold pid; now rewrite Hc0|]. split.
  - apply run_pid; [exact Hevs|]. unfold pid. now rewrite (st_child _ _ _ Hs).
  - assert (pending (length (runs w0)) w1) as Hp.
    { apply run_pending; [|now apply started_pending].
      eapply Forall_impl; [exact Hevs|]. intros [? e] He. simpl in *.
      destruct e; try reflexivity. discriminate. }
    pose proof (step_child_exit env _ code signal _ w1 Hex Hp eq_refl) as Hx.
    unfold pid. now rewrite (ex_child _ _ _ _ Hx).
Qed.

Lemma pid_while_child_held_witness :
  let w0 := run [(delivering, ProcessSignal "SIGINT")] (sleep false None) in
  let w1 := run [(delivering, CallTerminate None)] (snd (start (Spawned 4242) w0)) in
  pid w0 = None /\
  pid w1 = Some 4242 /\
  pid (step delivering (ChildExit (length (runs w0)) (Some 0) None) w1) = None.
Proof.
  intros w0 w1.
  exact (pid_while_child_held (sleep false None) 4242
           [(delivering, ProcessSignal "SIGINT")] [(delivering, CallTerminate None)]
           delivering (Some 0) None (@eq_refl _ None)
           (Forall_cons_2 _ (delivering, ProcessSignal "SIGINT") _ (@eq_refl _ false)
              (Forall_nil_2 _))
           (Forall_cons_2 _ (delivering, CallTerminate None) _ (@eq_refl _ false)
              (Forall_nil_2 _))
           (@eq_refl _ None)).
Defined.

Lemma step_killed env e w : killed w = true -> killed (step env e w) = true.
Proof.
  unfold killed. intros H.
  destruct (step_cases env e w) as [Hq|sp _ _ Hn Hs|k code signal r _ _ _ _ Hx].
  - apply orb_true_iff in H as [H|H]; [now rewrite (q_terminated _ _ Hq H)|].
    pose proof (q_child _ _ Hq) as Hch.
    destruct (child (this w)) as [c|]; [|discriminate].
    destruct (child (this (step env e w))) as [c'|]; simpl in Hch; [|tauto].
    destruct Hch as [_ Hk]. rewrite (Hk H). apply orb_true_r.
  - rewrite Hn, orb_false_r in H. now rewrite (st_terminated _ _ _ Hs), H.
  - now rewrite (ex_terminated _ _ _ _ Hx).
Qed.

(** X3: the [killed] query never goes back: once it answers true it answers
    true after every further event, a second [start] included. *)
Theorem killed_is_final (w : World) (evs : list (Env * Event)) :
  killed w = true -> killed (run evs w) = true.
Proof.
  revert w. induction evs as [|[env e] evs IH]; intros w H; simpl; [exact H|].
  apply IH, step_killed, H.
Qed.

Lemma killed_is_final_witness :
  let w := snd (terminate "SIGTERM" delivering (snd (start (Spawned 4242) (sleep false None)))) in
  killed (run [(delivering, ChildExit 0 None (Some "SIGTERM"));
               (delivering, CallStart (Spawned 4243))] w) = true.
Proof.
  intros w.
  exact (killed_is_final w
           [(delivering, ChildExit 0 None (Some "SIGTERM"));
            (delivering, CallStart (Spawned 4243))] (@eq_refl _ true)).
Defined.

(** *** Handlers that do not exit the host *)

Lemma steady_refl w : steady w w.
Proof. split; [reflexivity|]. exists []. now rewrite app_nil_r. Qed.

Lemma steady_trans w1 w2 w3 : steady w1 w2 -> steady w2 w3 -> steady w1 w3.
Proof.
  intros [H1 [n1 E1]] [H2 [n2 E2]]. split; [congruence|].
  exists (n1 ++ n2)%list. now rewrite E2, E1, app_assoc.
Qed.

Ltac steady_leaf :=
  split; [reflexivity | first [ eexists; reflexivity | exists []; now rewrite app_nil_r ]].

Ltac steady_tac := along_tac steady_refl steady_trans ltac:(steady_leaf).

Lemma steady_terminate signal env : Along steady (terminate signal env).
Proof.
  unfold terminate, treeKill, child_kill, on_child_error, log, console, setTimeout.
  steady_tac.
Qed.

Lemma steady_call_handler h arg env : Along steady (call_handler h arg env).
Proof.
  unfold call_handler, signal_handler, exception_handler, exit_handler.
  pose proof steady_terminate as Ht.
  unfold log, console, setTimeout.
  along_tac steady_refl steady_trans ltac:(first [apply Ht | steady_leaf]).
Qed.

Lemma steady_call_all hs arg env : Along steady (call_all hs arg env).
Proof.
  apply (Along_for_each _ steady_refl steady_trans). intros x. apply steady_call_handler.
Qed.

Lemma log_error message w :
  log message error w = (Ok tt, emit (Console stderr (prefix w +:+ " " +:+ message)) w).
Proof. unfold log, bind, get. destruct (verbose (this w)); reflexivity. Qed.

(** *** Dispatch to the registered handlers *)

Lemma heard_registered win k event :
  In event (handled_events win) ->
  filter (fun x : string * Handler => String.eqb event (fst x) = true) (registered win k) =
  [(event, mkHandler k (handler_kind event))].
Proof.
  intros H. destruct win; simpl in H;
    repeat (destruct H as [<-|H]; [reflexivity|]); destruct H.
Qed.

Lemma unheard_registered win k event :
  ~ In event (handled_events win) ->
  filter (fun x : string * Handler => String.eqb event (fst x) = true) (registered win k) = [].
Proof.
  intros H.
  assert (forall x, In x (registered win k) -> String.eqb event (fst x) <> true) as Hno.
  { intros x Hx Heq. apply String.eqb_eq in Heq. apply H. rewrite Heq.
    assert (In (fst x) (map fst (registered win k))) as Hin by now apply in_map.
    rewrite registered_events in Hin. unfold handled_events, relayed_signals.
    now rewrite <- app_assoc. }
  induction (registered win k) as [|x l IH]; [reflexivity|].
  rewrite filter_cons. destruct (decide (String.eqb event (fst x) = true)) as [Heq|_].
  - exfalso. apply (Hno x); [now left | exact Heq].
  - apply IH. intros y Hy. apply Hno. now right.
Qed.

Lemma reached_tidy basename win o evs :
  tidy (run evs (new_World (new_ProcessWrapper basename win o))).
Proof. apply run_tidy, tidy_new; reflexivity. Qed.

Lemma reached_isWindows basename win o evs :
  isWindows (this (run evs (new_World (new_ProcessWrapper basename win o)))) = win.
Proof.
  destruct (run_config evs (new_World (new_ProcessWrapper basename win o)))
    as (_ & -> & _). reflexivity.
Qed.

Lemma can_kill_child w : can_kill w = true -> exists c, child (this w) = Some c.
Proof.
  unfold can_kill. intros H. apply andb_prop in H as [H _]. apply andb_prop in H as [_ H].
  destruct (child (this w)) as [c|]; [now exists c | discriminate].
Qed.

(** In a reached world with a child, an event of [handled_events] has exactly
    one listener, the handler registered for it. *)
Lemma heard_live basename win o evs event :
  let w := run evs (new_World (new_ProcessWrapper basename win o)) in
  can_kill w = true -> In event (handled_events win) ->
  exists k, listeners_of event w = [(event, mkHandler k (handler_kind event))].
Proof.
  intros w Hk He. destruct (reached_tidy basename win o evs) as [_ Hc]. fold w in Hc.
  destruct (can_kill_child w Hk) as [c Hsome]. rewrite Hsome in Hc.
  destruct Hc as [k Hl]. exists k. unfold listeners_of. rewrite Hl.
  unfold w. rewrite reached_isWindows. now apply heard_registered.
Qed.

Lemma process_emit_one event arg env w x :
  listeners_of event w = [x] ->
  process_emit event arg env w = (call_handler (snd x) arg env ;; ret tt) w.
Proof. intros H. unfold process_emit, bind at 1, get. now rewrite H. Qed.

(** *** The handlers on a running child *)

Lemma log_then message level w :
  exists pre w1,
    log message level w = (Ok tt, w1) /\
    effects w1 = (effects w ++ pre)%list /\
    (forall line, In (Console stdout line) pre -> verbose (this w) = true) /\
    this w1 = this w /\ exiting w1 = exiting w /\ timers w1 = timers w /\
    listeners w1 = listeners w.
Proof.
  unfold log, bind, get, console, modify.
  destruct (verbose (this w)) eqn:Ev, level; simpl;
    first [ exists [], w; rewrite app_nil_r; repeat split; auto; intros line []
          | eexists [_], _; repeat split; auto;
            intros line [H|[]]; first [reflexivity | discriminate] ].
Qed.

Lemma signal_handler_kills signal env w :
  can_kill w = true ->
  exists w2,
    signal_handler signal env w = (Ok tt, w2) /\
    terminated (this w2) = true /\
    exiting w2 = exiting w /\
    In SignalExitTimer (timers w2) /\
    exists new, effects w2 = (effects w ++ new)%list /\
                In (kill_call w "SIGTERM") new /\ In (SetTimeout SignalExitTimer 5000) new.
Proof.
  intros Hk. unfold signal_handler. unfold bind at 1.
  destruct (log_then ("Received " +:+ signal +:+ ", terminating child process...") info w)
    as (pre & w1 & -> & Hpre & _ & Hthis & Hex1 & _).
  assert (can_kill w1 = true) as Hk1 by (unfold can_kill, pid in *; now rewrite Hthis).
  assert (kill_call w1 "SIGTERM" = kill_call w "SIGTERM") as Hkc
    by (unfold kill_call, pid; now rewrite Hthis).
  unfold bind.
  pose proof (Safe_unit _ w1 (Safe_terminate "SIGTERM" env)) as Hok.
  destruct (terminate_kills "SIGTERM" env w1 Hk1) as [Ht (new & Hnew & Hin)].
  destruct (steady_terminate "SIGTERM" env w1) as [Hex2 _].
  destruct (terminate "SIGTERM" env w1) as [r w2]. simpl in *. subst r.
  unfold setTimeout, modify. eexists. split; [reflexivity|]. simpl.
  repeat split; try assumption.
  - congruence.
  - apply in_or_app. right. now left.
  - exists (pre ++ new ++ [SetTimeout SignalExitTimer 5000])%list.
    rewrite Hnew, Hpre, <- !app_assoc. repeat split.
    + apply in_or_app. right. apply in_or_app. left. now rewrite <- Hkc.
    + apply in_or_app. right. apply in_or_app. right. now left.
Qed.

(** X4: in every world the wrapper reaches with a running child (a child with
    a pid, latch unset) and the host alive, a SIGINT, SIGTERM or SIGHUP
    delivered to the host, and on Windows a SIGBREAK, opens the kill sequence
    on the child (with SIGTERM, whichever signal arrived), sets the latch and
    arms the 5000 ms exit timer. *)
Theorem signal_is_relayed
    (basename : string -> string) (win : bool) (o : WrapperOptions.t)
    (evs : list (Env * Event)) (env : Env) (signal : string) :
  let w := run evs (new_World (new_ProcessWrapper basename win o)) in
  exiting w = None -> can_kill w = true -> In signal (relayed_signals win) ->
  let w' := step env (ProcessSignal signal) w in
  terminated (this w') = true /\
  In SignalExitTimer (timers w') /\
  exists new, effects w' = (effects w ++ new)%list /\
              In (kill_call w "SIGTERM") new /\ In (SetTimeout SignalExitTimer 5000) new.
Proof.
  intros w Hex Hk Hs w'.
  assert (In signal (handled_events win)) as He by (apply in_or_app; now left).
  destruct (heard_live basename win o evs signal Hk He) as [k Hl]. fold w in Hl.
  assert (handler_kind signal = SignalHandler signal) as Hkind.
  { destruct win; simpl in Hs; repeat (destruct Hs as [<-|Hs]; [reflexivity|]); destruct Hs. }
  unfold w', step. rewrite Hex, (process_emit_one _ _ _ _ _ Hl). simpl.
  unfold call_handler. simpl. rewrite Hkind. unfold bind.
  destruct (signal_handler_kills signal env w Hk) as (w2 & -> & Ht & _ & Hti & Hnew).
  simpl. auto.
Qed.

Lemma signal_is_relayed_witness :
  let w := run [(delivering, CallStart (Spawned 4242))]
               (new_World (new_ProcessWrapper as_is false
                  (WrapperOptions.mk "sleep" (Some ["10"]) None None None None None))) in
  let w' := step delivering (ProcessSignal "SIGINT") w in
  terminated (this w') = true /\
  In SignalExitTimer (timers w') /\
  exists new, effects w' = (effects w ++ new)%list /\
              In (kill_call w "SIGTERM") new /\ In (SetTimeout SignalExitTimer 5000) new.
Proof.
  intros w w'.
  exact (signal_is_relayed as_is false
           (WrapperOptions.mk "sleep" (Some ["10"]) None None None None None)
           [(delivering, CallStart (Spawned 4242))] delivering "SIGINT"
           (@eq_refl _ None) (@eq_refl _ true) (or_introl (@eq_refl _ "SIGINT"))).
Defined.

(** X5: in every world the wrapper reaches, a signal it registered no handler
    for (SIGBREAK on Unix, SIGUSR1, ...) runs none of its code: the world,
    effects included, is unchanged. *)
Theorem unregistered_signal_runs_nothing
    (basename : string -> string) (win : bool) (o : WrapperOptions.t)
    (evs : list (Env * Event)) (env : Env) (signal : string) :
  let w := run evs (new_World (new_ProcessWrapper basename win o)) in
  ~ In signal (handled_events win) ->
  step env (ProcessSignal signal) w = w.
Proof.
  intros w Hs. unfold step. destruct (exiting w); [reflexivity|].
  assert (listeners_of signal w = []) as Hl.
  { destruct (reached_tidy basename win o evs) as [_ Hc]. fold w in Hc.
    unfold listeners_of. destruct (child (this w)).
    - destruct Hc as [k ->]. unfold w. rewrite reached_isWindows.
      now apply unheard_registered.
    - now rewrite Hc. }
  unfold process_emit, bind, get. now rewrite Hl.
Qed.

Lemma unregistered_signal_runs_nothing_witness :
  let w := run [(delivering, CallStart (Spawned 4242))]
               (new_World (new_ProcessWrapper as_is false
                  (WrapperOptions.mk "sleep" (Some ["10"]) None None None None None))) in
  step delivering (ProcessSignal "SIGBREAK") w = w.
Proof.
  intros w.
  refine (unregistered_signal_runs_nothing as_is false
            (WrapperOptions.mk "sleep" (Some ["10"]) None None None None None)
            [(delivering, CallStart (Spawned 4242))] delivering "SIGBREAK" _).
  simpl. intros H. repeat (destruct H as [H|H]; [discriminate H|]). exact H.
Defined.

(** *** The host exits *)

Lemma process_exit_exits code env w :
  exiting w = None ->
  exiting (snd (process_exit code env w)) = Some code /\
  exists new, effects (snd (process_exit code env w)) = (effects w ++ ProcessExit code :: new)%list.
Proof.
  intros Hex. unfold process_exit, bind, get, modify. simpl. rewrite Hex.
  unfold process_emit, bind, get.
  destruct (steady_call_all
              (listeners_of "exit" (set_exiting (Some code) (emit (ProcessExit code) w)))
              "" env (set_exiting (Some code) (emit (ProcessExit code) w)))
    as [He [new Hn]].
  split; [exact He|]. exists new. rewrite Hn. simpl. now rewrite <- app_assoc.
Qed.

Lemma process_exit_live code env w k :
  exiting w = None -> can_kill w = true ->
  listeners_of "exit" w = [("exit", mkHandler k ExitHandler)] ->
  exists w3,
    process_exit code env w = (Ok tt, w3) /\
    exiting w3 = Some code /\
    terminated (this w3) = true /\
    exists new, effects w3 = (effects w ++ ProcessExit code :: new)%list /\
                In (kill_call w "SIGTERM") new.
Proof.
  intros Hex Hk Hl. unfold process_exit, bind at 1, get, bind at 1, modify.
  rewrite Hex. unfold bind at 1.
  set (w2 := set_exiting (Some code) (emit (ProcessExit code) w)).
  assert (listeners_of "exit" w2 = [("exit", mkHandler k ExitHandler)]) as Hl2 by exact Hl.
  rewrite (process_emit_one _ _ _ _ _ Hl2). unfold call_handler. simpl.
  unfold exit_handler, bind.
  assert (can_kill w2 = true) as Hk2 by exact Hk.
  pose proof (Safe_unit _ w2 (Safe_terminate "SIGTERM" env)) as Hok.
  destruct (terminate_kills "SIGTERM" env w2 Hk2) as [Ht (new & Hnew & Hin)].
  destruct (steady_terminate "SIGTERM" env w2) as [Hex2 _].
  destruct (terminate "SIGTERM" env w2) as [r w3]. simpl in *. subst r.
  exists w3. repeat split; try assumption.
  exists new. split; [|exact Hin]. rewrite Hnew. unfold w2. simpl. now rewrite <- app_assoc.
Qed.

(** X6: the exit hook.  In every world the wrapper reaches with a running
    child, when the host process exits with a code (process.exit, or the event
    loop running dry) the 'exit' listener opens the kill sequence on the child
    before the host is gone, and the host exits with that code. *)
Theorem host_exit_reaps_child
    (basename : string -> string) (win : bool) (o : WrapperOptions.t)
    (evs : list (Env * Event)) (env : Env) (code : Z) :
  let w := run evs (new_World (new_ProcessWrapper basename win o)) in
  exiting w = None -> can_kill w = true ->
  let w' := step env (HostExit code) w in
  exiting w' = Some code /\
  terminated (this w') = true /\
  exists new, effects w' = (effects w ++ ProcessExit code :: new)%list /\
              In (kill_call w "SIGTERM") new.
Proof.
  intros w Hex Hk w'.
  assert (In "exit" (handled_events win)) as He
    by (apply in_or_app; right; right; now left).
  destruct (heard_live basename win o evs "exit" Hk He) as [k Hl]. fold w in Hl.
  destruct (process_exit_live code env w k Hex Hk Hl) as (w3 & E & H).
  unfold w', step. rewrite Hex, E. exact H.
Qed.

Lemma host_exit_reaps_child_witness :
  let w := run [(delivering, CallStart (Spawned 4242))]
               (new_World (new_ProcessWrapper as_is true
                  (WrapperOptions.mk "sleep" (Some ["10"]) None None None None None))) in
  let w' := step delivering (HostExit 0) w in
  exiting w' = Some 0 /\
  terminated (this w') = true /\
  exists new, effects w' = (effects w ++ ProcessExit 0 :: new)%list /\
              In (kill_call w "SIGTERM") new.
Proof.
  intros w w'.
  exact (host_exit_reaps_child as_is true
           (WrapperOptions.mk "sleep" (Some ["10"]) None None None None None)
           [(delivering, CallStart (Spawned 4242))] delivering 0
           (@eq_refl _ None) (@eq_refl _ true)).
Defined.

Lemma exception_handler_kills msg env w :
  can_kill w = true ->
  exists w2,
    exception_handler msg env w = (Ok tt, w2) /\
    terminated (this w2) = true /\
    exiting w2 = exiting w /\
    In ExceptionExitTimer (timers w2) /\
    exists new, effects w2 =
                (effects w ++ Console stderr (prefix w +:+ " " +:+ "Uncaught exception: " +:+ msg)
                           :: new)%list /\
                In (kill_call w "SIGTERM") new /\ In (SetTimeout ExceptionExitTimer 1000) new.
Proof.
  intros Hk. unfold exception_handler. unfold bind at 1. rewrite log_error.
  set (w1 := emit (Console stderr (prefix w +:+ " " +:+ "Uncaught exception: " +:+ msg)) w).
  assert (can_kill w1 = true) as Hk1 by exact Hk.
  unfold bind.
  pose proof (Safe_unit _ w1 (Safe_terminate "SIGTERM" env)) as Hok.
  destruct (terminate_kills "SIGTERM" env w1 Hk1) as [Ht (new & Hnew & Hin)].
  destruct (steady_terminate "SIGTERM" env w1) as [Hex2 _].
  destruct (terminate "SIGTERM" env w1) as [r w2]. simpl in *. subst r.
  unfold setTimeout, modify. eexists. split; [reflexivity|]. simpl.
  repeat split; try assumption.
  - apply in_or_app. right. now left.
  - exists (new ++ [SetTimeout ExceptionExitTimer 1000])%list.
    rewrite Hnew. simpl. rewrite <- !app_assoc. repeat split.
    + apply in_or_app. now left.
    + apply in_or_app. right. now left.
Qed.

(** X7: an uncaught exception in the host.  In every world the wrapper reaches
    with a running child, the 'uncaughtException' listener writes the message
    to the error stream (verbose or not), opens the kill sequence on the child
    and arms the 1000 ms timer; the host is still alive then.  When that timer
    fires in a host that is alive, the host exits with code 1. *)
Theorem uncaught_exception_kills_then_exits
    (basename : string -> string) (win : bool) (o : WrapperOptions.t)
    (evs : list (Env * Event)) (env : Env) (msg : string) :
  let w := run evs (new_World (new_ProcessWrapper basename win o)) in
  exiting w = None -> can_kill w = true ->
  let w' := step env (UncaughtException msg) w in
  terminated (this w') = true /\
  exiting w' = None /\
  In ExceptionExitTimer (timers w') /\
  (exists new, effects w' =
               (effects w ++ Console stderr (prefix w +:+ " " +:+ "Uncaught exception: " +:+ msg)
                          :: new)%list /\
               In (kill_call w "SIGTERM") new /\ In (SetTimeout ExceptionExitTimer 1000) new) /\
  (forall w2 env2, exiting w2 = None ->
     exiting (snd (on_exceptionExit_timer env2 w2)) = Some 1).
Proof.
  intros w Hex Hk w'.
  assert (In "uncaughtException" (handled_events win)) as He
    by (apply in_or_app; right; now left).
  destruct (heard_live basename win o evs "uncaughtException" Hk He) as [k Hl]. fold w in Hl.
  unfold w', step. rewrite Hex. unfold uncaught. rewrite Hl.
  unfold call_all. simpl. unfold call_handler. simpl. unfold bind.
  destruct (exception_handler_kills msg env w Hk) as (w2 & -> & Ht & Hex2 & Hti & Hnew).
  simpl. repeat split; try assumption.
  - congruence.
  - intros w3 env2 Hex3. unfold on_exceptionExit_timer.
    apply (process_exit_exits 1 env2 w3 Hex3).
Qed.

Lemma uncaught_exception_kills_then_exits_witness :
  let w := run [(delivering, CallStart (Spawned 4242))]
               (new_World (new_ProcessWrapper as_is false
                  (WrapperOptions.mk "sleep" (Some ["10"]) None None None None None))) in
  let w' := step delivering (UncaughtException "boom") w in
  terminated (this w') = true /\ exiting w' = None /\ In ExceptionExitTimer (timers w').
Proof.
  intros w w'.
  pose proof (uncaught_exception_kills_then_exits as_is false
                (WrapperOptions.mk "sleep" (Some ["10"]) None None None None None)
                [(delivering, CallStart (Spawned 4242))] delivering "boom"
                (@eq_refl _ None) (@eq_refl _ true)) as (H1 & H2 & H3 & _).
  exact (conj H1 (conj H2 H3)).
Defined.

(** *** The exit timer of the signal handlers *)

Lemma signal_handler_arms signal env w :
  exists w2,
    signal_handler signal env w = (Ok tt, w2) /\
    In SignalExitTimer (timers w2) /\
    (exiting w2 = exiting w) /\
    (can_kill w = true \/ terminated (this w) = true -> terminated (this w2) = true).
Proof.
  unfold signal_handler. unfold bind at 1.
  destruct (log_then ("Received " +:+ signal +:+ ", terminating child process...") info w)
    as (pre & w1 & -> & _ & _ & Hthis & Hex1 & _).
  unfold bind.
  pose proof (Safe_unit _ w1 (Safe_terminate "SIGTERM" env)) as Hok.
  pose proof (Quiet_terminate "SIGTERM" env w1) as Hq.
  pose proof (terminate_kills "SIGTERM" env w1) as Hkill.
  destruct (steady_terminate "SIGTERM" env w1) as [Hex2 _].
  destruct (terminate "SIGTERM" env w1) as [r w2]. simpl in *. subst r.
  unfold setTimeout, modify. eexists. split; [reflexivity|]. simpl.
  repeat split.
  - apply in_or_app. right. now left.
  - congruence.
  - intros [Hk|Ht].
    + apply Hkill. unfold can_kill, pid in *. now rewrite Hthis.
    + apply (q_terminated _ _ Hq). now rewrite Hthis.
Qed.

(** X8: the 5000 ms timer a signal handler arms calls process.exit(0) only if
    the latch is unset when it fires.  After a handler that found a running
    child (or the latch already set) the latch is set for good, so the timer
    returns with the world unchanged: the host is not forced to exit.  When
    the latch is unset at expiry (a signal before [start], or after a failed
    spawn) a host that is alive exits with code 0. *)
Theorem signal_exit_timer_fires_only_unlatched
    (w : World) (signal : string) (env : Env) (evs : list (Env * Event)) (env' : Env) :
  let w1 := snd (signal_handler signal env w) in
  let w2 := run evs w1 in
  In SignalExitTimer (timers w1) /\
  (if can_kill w || terminated (this w)
   then on_signalExit_timer env' w2 = (Ok tt, w2)
   else True) /\
  (if terminated (this w2)
   then on_signalExit_timer env' w2 = (Ok tt, w2)
   else match exiting w2 with
        | None => exiting (snd (on_signalExit_timer env' w2)) = Some 0
        | Some _ => True
        end).
Proof.
  intros w1 w2.
  destruct (signal_handler_arms signal env w) as (w1' & E & Hti & _ & Hlatch).
  assert (w1 = w1') as -> by (unfold w1; now rewrite E).
  assert (forall w0, terminated (this w0) = true -> on_signalExit_timer env' w0 = (Ok tt, w0))
    as Hnoop.
  { intros w0 H0. unfold on_signalExit_timer, bind, get. now rewrite H0. }
  repeat split.
  - exact Hti.
  - destruct (can_kill w || terminated (this w)) eqn:Hc; [|exact I].
    apply Hnoop, run_latched, Hlatch. now apply orb_true_iff in Hc.
  - destruct (terminated (this w2)) eqn:Ht; [now apply Hnoop|].
    destruct (exiting w2) eqn:Hex; [exact I|].
    unfold on_signalExit_timer, bind, get. rewrite Ht. simpl.
    apply (process_exit_exits 0 env' w2 Hex).
Qed.

(** *** The timeout *)



(** *** Every call into the runtime is an allowed one *)

Lemma conforms_refl w : conforms w w.
Proof. repeat split. exists []. split; [now rewrite app_nil_r | constructor]. Qed.

Lemma conforms_trans w1 w2 w3 : conforms w1 w2 -> conforms w2 w3 -> conforms w1 w3.
Proof.
  intros (Ho1 & Hw1 & Hv1 & n1 & E1 & F1) (Ho2 & Hw2 & Hv2 & n2 & E2 & F2).
  repeat split; try congruence.
  exists (n1 ++ n2)%list. split; [now rewrite E2, E1, app_assoc|].
  apply Forall_app. split; [exact F1|]. now rewrite Ho1, Hw1, Hv1 in F2.
Qed.

(** A step that makes no call into the runtime and keeps the wrapper's
    configuration. *)
Lemma conforms_silent w w' :
  options (this w') = options (this w) -> isWindows (this w') = isWindows (this w) ->
  verbose (this w') = verbose (this w) -> effects w' = effects w -> conforms w w'.
Proof.
  intros Ho Hw Hv He. repeat split; try assumption.
  exists []. split; [now rewrite app_nil_r | constructor].
Qed.

Lemma conforms_emit a w :
  allowed (options (this w)) (isWindows (this w)) (verbose (this w)) a -> conforms w (emit a w).
Proof. intros H. repeat split. exists [a]. split; [reflexivity | now constructor]. Qed.

Ltac conforms_leaf :=
  first [ apply conforms_silent; reflexivity
        | apply conforms_emit; simpl; auto
        | eapply conforms_trans;
          [apply conforms_emit; simpl; auto | apply conforms_silent; reflexivity] ].

Ltac conforms_tac tac :=
  along_tac conforms_refl conforms_trans ltac:(first [tac | conforms_leaf]).

Lemma conforms_log message level : Along conforms (log message level).
Proof.
  intros w. unfold log, bind, get, console, modify.
  destruct (verbose (this w)) eqn:Ev, level; simpl;
    first [apply conforms_refl | apply conforms_emit; simpl; auto].
Qed.

Lemma conforms_terminate signal env : Along conforms (terminate signal env).
Proof.
  intros w. destruct (can_kill w) eqn:Hk; [|rewrite terminate_skips by exact Hk; apply conforms_refl].
  unfold terminate, bind, get. rewrite guard_can_kill, Hk.
  open_world w; destruct env as [kr tk];
    repeat match goal with b : bool |- _ => destruct b end;
    cbn in Hk; try discriminate;
    destruct kr, tk; cbv -[show String.append app In allowed];
    rewrite <- ?app_assoc;
    (repeat split; eexists; split; [reflexivity|]);
    cbn [app]; repeat constructor; simpl; auto; discriminate.
Qed.

Lemma conforms_child_kill_SIGKILL env : Along conforms (child_kill "SIGKILL" env).
Proof.
  pose proof conforms_log as Hlog.
  unfold child_kill, on_child_error. conforms_tac ltac:(apply Hlog).
Qed.

Lemma conforms_call_handler h arg env : Along conforms (call_handler h arg env).
Proof.
  pose proof conforms_log as Hlog. pose proof conforms_terminate as Hterm.
  unfold call_handler, signal_handler, exception_handler, exit_handler, setTimeout.
  conforms_tac ltac:(first [apply Hlog | apply Hterm]).
Qed.

Lemma conforms_process_emit event arg env : Along conforms (process_emit event arg env).
Proof.
  pose proof conforms_call_handler as Hh.
  unfold process_emit, call_all. conforms_tac ltac:(apply Hh).
Qed.

Lemma conforms_process_exit code env : Along conforms (process_exit code env).
Proof.
  pose proof conforms_process_emit as He.
  unfold process_exit. conforms_tac ltac:(apply He).
Qed.

Lemma conforms_timer_callback t env : Along conforms (timer_callback t env).
Proof.
  pose proof conforms_log as Hlog. pose proof conforms_terminate as Hterm.
  pose proof conforms_child_kill_SIGKILL as Hkill.
  pose proof conforms_process_exit as Hexit.
  destruct t; simpl;
    unfold on_timeout, on_forceKill_timer, on_signalExit_timer, on_exceptionExit_timer;
    conforms_tac ltac:(first [apply Hlog | apply Hterm | apply Hkill | apply Hexit]).
Qed.

Lemma conforms_on_treeKill_done err env : Along conforms (on_treeKill_done err env).
Proof.
  pose proof conforms_log as Hlog. pose proof conforms_child_kill_SIGKILL as Hkill.
  unfold on_treeKill_done. conforms_tac ltac:(first [apply Hlog | apply Hkill]).
Qed.

Lemma conforms_on_child_exit k code signal : Along conforms (on_child_exit k code signal).
Proof.
  pose proof conforms_log as Hlog.
  unfold on_child_exit, cleanup, resolve, process_removeListener.
  conforms_tac ltac:(apply Hlog).
Qed.

Lemma conforms_start sp : Along conforms (start sp).
Proof.
  intros w. destruct (child (this w)) as [c|] eqn:Hc.
  { rewrite start_already by now rewrite Hc. apply conforms_refl. }
  open_world w; [discriminate|]. clear Hc.
  destruct sp;
    match goal with o : WrapperOptions.t |- _ => destruct o as [? ? ? ? [t|] ? ?] end;
    repeat match goal with b : bool |- _ => destruct b end.
  all: unfold start, setupCleanupHandlers; cbn [app].
  all: do 2 (cbv -[show String.append String.concat app length Z.eqb allowed In]; cbn [app]).
  all: repeat match goal with
              | |- context [Z.eqb ?a ?b] => destruct (Z.eqb_spec a b)
              end.
  all: cbv -[show String.append String.concat app length Z.eqb allowed In].
  all: rewrite <- ?app_assoc.
  all: repeat split; eexists; (split; [reflexivity|]).
  all: cbn [app]; repeat first [apply Forall_nil_2 | apply Forall_cons_2].
  all: simpl; repeat split; auto 10.
Qed.

Lemma conforms_uncaught msg env w : conforms w (uncaught msg env w).
Proof.
  unfold uncaught. destruct (listeners_of "uncaughtException" w).
  - apply conforms_process_exit.
  - apply (Along_for_each _ conforms_refl conforms_trans). intros x.
    apply conforms_call_handler.
Qed.

Lemma conforms_settle env (m : M unit) w : Along conforms m -> conforms w (settle env (m w)).
Proof.
  intros Hm. specialize (Hm w). unfold settle.
  destruct (m w) as [[[]|msg] w1]; simpl in *; auto.
  eapply conforms_trans; [exact Hm | apply conforms_uncaught].
Qed.

Lemma conforms_step env e w : conforms w (step env e w).
Proof.
  unfold step. destruct (exiting w); [apply conforms_refl|].
  destruct e.
  - apply conforms_start.
  - apply conforms_terminate.
  - apply conforms_settle, conforms_process_emit.
  - apply conforms_uncaught.
  - apply conforms_settle, conforms_process_exit.
  - destruct (runs w !! k) as [r|]; [|apply conforms_refl].
    destruct (exitListening r); [|apply conforms_refl].
    apply conforms_settle, conforms_on_child_exit.
  - destruct (runs w !! k); [|apply conforms_refl].
    apply conforms_settle. unfold on_child_error. apply conforms_log.
  - destruct (timers w !! i); [|apply conforms_refl].
    eapply conforms_trans; [|apply conforms_settle, conforms_timer_callback].
    apply conforms_silent; reflexivity.
  - destruct (treeKills w); [apply conforms_refl|].
    eapply conforms_trans; [|apply conforms_settle, conforms_on_treeKill_done].
    apply conforms_silent; reflexivity.
Qed.

Lemma conforms_run evs w : conforms w (run evs w).
Proof.
  revert w. induction evs as [|[env e] evs IH]; intros w; simpl; [apply conforms_refl|].
  eapply conforms_trans; [apply conforms_step | apply IH].
Qed.

(** In every world a wrapper reaches, each call it has made into the runtime
    is one its options, platform and verbosity allow. *)
Lemma reached_allowed basename win o evs :
  Forall (allowed o win (default false (WrapperOptions.verbose o)))
         (effects (run evs (new_World (new_ProcessWrapper basename win o)))).
Proof.
  destruct (conforms_run evs (new_World (new_ProcessWrapper basename win o)))
    as (_ & _ & _ & new & -> & H).
  exact H.
Qed.

(** X10: a wrapper that was not made verbose never writes to standard output,
    whatever happens to it: its only console output is on the error stream. *)
Theorem only_verbose_writes_stdout
    (basename : string -> string) (win : bool) (o : WrapperOptions.t)
    (evs : list (Env * Event)) (line : string) :
  WrapperOptions.verbose o <> Some true ->
  ~ In (Console stdout line) (effects (run evs (new_World (new_ProcessWrapper basename win o)))).
Proof.
  intros Hv Hin.
  pose proof (proj1 (List.Forall_forall _ _) (reached_allowed basename win o evs) _ Hin) as H.
  simpl in H. destruct (WrapperOptions.verbose o) as [[|]|]; simpl in H; congruence.
Qed.

Lemma only_verbose_writes_stdout_witness :
  ~ In (Console stdout "[reliable-mcp:sleep] Received SIGINT, terminating child process...")
       (effects (run [(delivering, CallStart (Spawned 4242));
                      (delivering, ProcessSignal "SIGINT")]
                     (new_World (new_ProcessWrapper as_is false
                        (WrapperOptions.mk "sleep" (Some ["10"]) None None None None None))))).
Proof.
  refine (only_verbose_writes_stdout as_is false
            (WrapperOptions.mk "sleep" (Some ["10"]) None None None None None)
            [(delivering, CallStart (Spawned 4242)); (delivering, ProcessSignal "SIGINT")]
            "[reliable-mcp:sleep] Received SIGINT, terminating child process..." _).
  simpl. discriminate.
Defined.

(** X11: the kill strategy follows the platform in every run.  tree-kill is
    called only on Windows, and then with SIGTERM; on Windows [child.kill] is
    only ever called with SIGKILL (the fallback), so the signal a caller passes
    to [terminate] is not used there; the force-kill timer is armed only on
    Unix. *)
Theorem kill_strategy_follows_platform
    (basename : string -> string) (win : bool) (o : WrapperOptions.t)
    (evs : list (Env * Event)) (a : Action) :
  In a (effects (run evs (new_World (new_ProcessWrapper basename win o)))) ->
  match a with
  | TreeKill _ signal => win = true /\ signal = "SIGTERM"
  | Kill signal => win = true -> signal = "SIGKILL"
  | SetTimeout ForceKillTimer _ => win = false
  | _ => True
  end.
Proof.
  intros Hin.
  pose proof (proj1 (List.Forall_forall _ _) (reached_allowed basename win o evs) _ Hin) as H.
  destruct a as [| | | | | |[] ms|]; simpl in H; try exact I; try exact H. apply H.
Qed.

Lemma kill_strategy_follows_platform_witness :
  let w := run [(delivering, CallStart (Spawned 4242)); (delivering, CallTerminate (Some "SIGINT"))]
               (new_World (new_ProcessWrapper as_is true
                  (WrapperOptions.mk "sleep" (Some ["10"]) None None None None None))) in
  In (TreeKill (Some 4242) "SIGTERM") (effects w) /\ (true = true /\ "SIGTERM" = "SIGTERM").
Proof.
  intros w.
  assert (In (TreeKill (Some 4242) "SIGTERM") (effects w)) as Hin
    by (vm_compute; do 7 right; left; reflexivity).
  exact (conj Hin
           (kill_strategy_follows_platform as_is true
              (WrapperOptions.mk "sleep" (Some ["10"]) None None None None None)
              [(delivering, CallStart (Spawned 4242));
               (delivering, CallTerminate (Some "SIGINT"))]
              (TreeKill (Some 4242) "SIGTERM") Hin)).
Defined.

(** X12: every child the wrapper ever spawns is spawned with the command of
    the options, with their arguments (none when absent), hidden on Windows
    unless [windowsHide] is false, and never detached on Windows (on Unix,
    detached only when the option says so). *)
Theorem spawn_follows_options
    (basename : string -> string) (win : bool) (o : WrapperOptions.t)
    (evs : list (Env * Event)) (command : string) (args : list string)
    (windowsHide detached : bool) :
  In (Spawn command args windowsHide detached)
     (effects (run evs (new_World (new_ProcessWrapper basename win o)))) ->
  command = WrapperOptions.command o /\
  args = default [] (WrapperOptions.args o) /\
  windowsHide = (match WrapperOptions.windowsHide o with Some false => false | _ => true end) /\
  detached = (if win then false else default false (WrapperOptions.detached o)).
Proof.
  intros Hin.
  exact (proj1 (List.Forall_forall _ _) (reached_allowed basename win o evs) _ Hin).
Qed.

Lemma spawn_follows_options_witness :
  let o := WrapperOptions.mk "sleep" (Some ["10"]) None (Some true) None None None in
  let w := run [(delivering, CallStart (Spawned 4242))]
               (new_World (new_ProcessWrapper as_is true o)) in
  In (Spawn "sleep" ["10"] true false) (effects w) /\ false = false.
Proof.
  intros o w.
  assert (In (Spawn "sleep" ["10"] true false) (effects w)) as Hin
    by (vm_compute; left; reflexivity).
  exact (conj Hin
           (proj2 (proj2 (proj2
              (spawn_follows_options as_is true o [(delivering, CallStart (Spawned 4242))]
                 "sleep" ["10"] true false Hin))))).
Defined.

(** X13: the delays of the timers, in every run.  A timeout timer is armed
    only with the [timeout] of the options as its delay, and never when that
    is absent or 0; the force-kill timer always waits 3000 ms, the exit timer
    of the signal handlers 5000 ms, the exit timer of the exception handler
    1000 ms. *)
Theorem timer_delays
    (basename : string -> string) (win : bool) (o : WrapperOptions.t)
    (evs : list (Env * Event)) (t : Timer) (ms : Z) :
  In (SetTimeout t ms) (effects (run evs (new_World (new_ProcessWrapper basename win o)))) ->
  match t with
  | TimeoutTimer => WrapperOptions.timeout o = Some ms /\ ms <> 0
  | ForceKillTimer => ms = 3000
  | SignalExitTimer => ms = 5000
  | ExceptionExitTimer => ms = 1000
  end.
Proof.
  intros Hin.
  pose proof (proj1 (List.Forall_forall _ _) (reached_allowed basename win o evs) _ Hin) as H.
  destruct t; simpl in H; try exact H. apply H.
Qed.

Lemma timer_delays_witness :
  let o := WrapperOptions.mk "sleep" (Some ["10"]) None None (Some 500) None None in
  let w := run [(delivering, CallStart (Spawned 4242))]
               (new_World (new_ProcessWrapper as_is false o)) in
  In (SetTimeout TimeoutTimer 500) (effects w) /\ 500 <> 0.
Proof.
  intros o w.
  assert (In (SetTimeout TimeoutTimer 500) (effects w)) as Hin
    by (vm_compute; do 6 right; left; reflexivity).
  exact (conj Hin
           (proj2 (timer_delays as_is false o [(delivering, CallStart (Spawned 4242))]
                     TimeoutTimer 500 Hin))).
Defined.

(** X14: [start] arms the timeout timer exactly when the [timeout] option is a
    number other than 0 (a negative one included); with the option absent or 0
    a start that spawned leaves the pending timers as they were. *)
Theorem timeout_armed_iff_nonzero (w : World) (sp : SpawnResult) :
  child (this w) = None -> spawn_returns sp = true ->
  timers (snd (start sp w)) =
  (timers w ++
   match WrapperOptions.timeout (options (this w)) with
   | Some t => if (t =? 0)%Z then [] else [TimeoutTimer]
   | None => []
   end)%list.
Proof.
  intros Hc Hsp. destruct (start_spawns sp w Hc Hsp) as [_ Hs].
  rewrite (st_timers _ _ _ Hs). unfold armed, truthy.
  destruct (WrapperOptions.timeout (options (this w))) as [t|]; [|reflexivity].
  now destruct (t =? 0)%Z.
Qed.

Lemma timeout_armed_iff_nonzero_witness :
  timers (snd (start (Spawned 4242) (sleep false (Some (-1))))) =
  (timers (sleep false (Some (-1))) ++
   match WrapperOptions.timeout (options (this (sleep false (Some (-1))))) with
   | Some t => if (t =? 0)%Z then [] else [TimeoutTimer]
   | None => []
   end)%list.
Proof.
  exact (timeout_armed_iff_nonzero (sleep false (Some (-1))) (Spawned 4242)
           (@eq_refl _ None) (@eq_refl _ true)).
Defined.

(** *** The command line *)

Lemma indexOf_first x pre rest :
  ~ In x pre -> Cli.indexOf x (pre ++ x :: rest) = Some (List.length pre).
Proof.
  induction pre as [|y pre IH]; intros Hn; simpl.
  - now rewrite String.eqb_refl.
  - destruct (String.eqb_spec y x) as [->|_]; [exfalso; apply Hn; now left|].
    rewrite IH; [reflexivity|]. intros H. apply Hn. now right.
Qed.

Lemma indexOf_absent x l : ~ In x l -> Cli.indexOf x l = None.
Proof.
  induction l as [|y l IH]; intros Hn; simpl; [reflexivity|].
  destruct (String.eqb_spec y x) as [->|_]; [exfalso; apply Hn; now left|].
  rewrite IH; [reflexivity|]. intros H. apply Hn. now right.
Qed.

(** The loop reads no argument beyond [dashIndex]. *)
Lemma parse_loop_reads_prefix parseInt fuel argv argv' d i o :
  (forall j, (j <= d)%nat -> argv !! j = argv' !! j) ->
  Cli.parse_loop parseInt fuel argv d i o = Cli.parse_loop parseInt fuel argv' d i o.
Proof.
  intros Hsame. revert i o. induction fuel as [|fuel IH]; intros i o; simpl; [reflexivity|].
  destruct (Nat.ltb_spec i d) as [Hlt|_]; [|reflexivity].
  rewrite (Hsame i), (Hsame (i + 1)%nat) by lia.
  destruct (Cli.parse_step parseInt (argv' !! i) (argv' !! (i + 1)%nat) o) as [o' skip].
  apply IH.
Qed.

Lemma parse_step_plain parseInt arg next o :
  Cli.plain arg = true -> Cli.parse_step parseInt (Some arg) next o = (Cli.flag o arg, O).
Proof.
  unfold Cli.plain, Cli.parse_step, Cli.flag, Cli.one_of. simpl.
  intros H. apply negb_true_iff in H.
  repeat (apply orb_false_iff in H; destruct H as [? H]).
  repeat match goal with E : String.eqb arg _ = false |- _ => rewrite E; clear E end.
  simpl.
  destruct (arg =? "-v")%string, (arg =? "--verbose")%string, (arg =? "-d")%string,
           (arg =? "--detached")%string, (arg =? "--no-hide")%string; reflexivity.
Qed.

(** Over plain arguments the loop folds [flag]. *)
Lemma parse_loop_plain parseInt toks :
  forall done tail d fuel o,
    Forall (fun a => Cli.plain a = true) toks ->
    (List.length done + List.length toks <= d)%nat -> (List.length toks <= fuel)%nat ->
    Cli.parse_loop parseInt fuel (done ++ toks ++ tail) d (List.length done) o =
    Cli.parse_loop parseInt (fuel - List.length toks) (done ++ toks ++ tail) d
      (List.length done + List.length toks) (fold_left Cli.flag toks o).
Proof.
  induction toks as [|a toks IH]; intros done tail d fuel o Hp Hd Hf; simpl in *.
  - now rewrite Nat.sub_0_r, Nat.add_0_r.
  - destruct fuel as [|fuel]; [lia|]. simpl.
    destruct (Nat.ltb_spec (List.length done) d) as [_|Hge]; [|lia].
    assert ((done ++ a :: toks ++ tail)%list !! List.length done = Some a) as ->.
    { rewrite lookup_app_r by lia. now rewrite Nat.sub_diag. }
    apply Forall_cons in Hp as [Ha Hp].
    rewrite (parse_step_plain _ _ _ _ Ha).
    replace (done ++ a :: toks ++ tail)%list with ((done ++ [a]) ++ toks ++ tail)%list
      by now rewrite <- app_assoc.
    replace (List.length done + 0 + 1)%nat with (List.length (done ++ [a])%list)
      by (rewrite length_app; simpl; lia).
    rewrite IH; [|exact Hp | rewrite length_app; simpl; lia | lia].
    rewrite length_app. simpl. f_equal. lia.
Qed.

Lemma parse_loop_done parseInt fuel argv d i o :
  (d <= i)%nat -> Cli.parse_loop parseInt fuel argv d i o = o.
Proof.
  intros H. destruct fuel; simpl; [reflexivity|].
  destruct (Nat.ltb_spec i d); [lia | reflexivity].
Qed.

Lemma runWrapper_split parseInt pre command args :
  ~ In "--" pre -> command <> "" ->
  Cli.runWrapper parseInt (pre ++ "--" :: command :: args) =
  Cli.Launch
    (Cli.parse_loop parseInt (List.length pre) (pre ++ "--" :: command :: args) (List.length pre) 2
       Cli.defaults)
    command args.
Proof.
  intros Hn Hc. unfold Cli.runWrapper. rewrite (indexOf_first _ _ _ Hn).
  rewrite length_app. simpl.
  destruct (Nat.eqb_spec (List.length pre) (List.length pre + S (S (List.length args)) - 1)); [lia|].
  rewrite drop_app_ge by lia.
  replace (List.length pre + 1 - List.length pre)%nat with 1%nat by lia. simpl.
  destruct (String.eqb_spec command ""); [contradiction | reflexivity].
Qed.

(** X15: everything after the first [--] is the command line of the child,
    handed over unread: the first argument after it is the command (when it is
    not empty) and the rest are its arguments, whatever they look like, and
    the options [runWrapper] parses are the same for every command and
    arguments placed after the [--]. *)
Theorem command_after_dashes_is_verbatim
    (parseInt : option string -> Cli.JsNumber) (pre : list string)
    (command : string) (args : list string) :
  ~ In "--" pre -> command <> "" ->
  Cli.runWrapper parseInt (pre ++ "--" :: command :: args) =
  Cli.Launch
    (Cli.parse_loop parseInt (List.length pre) (pre ++ ["--"]) (List.length pre) 2 Cli.defaults)
    command args.
Proof.
  intros Hn Hc. rewrite (runWrapper_split _ _ _ _ Hn Hc). f_equal.
  apply parse_loop_reads_prefix. intros j Hj.
  destruct (decide (j < List.length pre)%nat) as [Hlt|Hge].
  - now rewrite !lookup_app_l by exact Hlt.
  - assert (j = List.length pre) as -> by lia.
    rewrite !lookup_app_r by lia. now rewrite Nat.sub_diag.
Qed.

Lemma command_after_dashes_is_verbatim_witness :
  Cli.runWrapper (fun _ => Cli.NaN)
    (["node"; "cli.js"; "-v"] ++ "--" :: "npx" :: ["-y"; "--verbose"; "server"]) =
  Cli.Launch
    (Cli.parse_loop (fun _ => Cli.NaN) (List.length ["node"; "cli.js"; "-v"])
       (["node"; "cli.js"; "-v"] ++ ["--"]) (List.length ["node"; "cli.js"; "-v"]) 2 Cli.defaults)
    "npx" ["-y"; "--verbose"; "server"].
Proof.
  refine (command_after_dashes_is_verbatim (fun _ => Cli.NaN) ["node"; "cli.js"; "-v"]
            "npx" ["-y"; "--verbose"; "server"] _ _).
  - simpl. intros H. repeat (destruct H as [H|H]; [discriminate H|]). exact H.
  - discriminate.
Defined.

(** X16: [runWrapper] stops with the usage error exactly when the command line
    has no [--] or nothing after its first [--], and with the empty-command
    error when the argument after the first [--] is the empty string; in these
    cases no wrapper is made. *)
Theorem no_command_is_an_error
    (parseInt : option string -> Cli.JsNumber) (pre args : list string) :
  ~ In "--" pre ->
  Cli.runWrapper parseInt pre = Cli.UsageError /\
  Cli.runWrapper parseInt (pre ++ ["--"]) = Cli.UsageError /\
  Cli.runWrapper parseInt (pre ++ "--" :: "" :: args) = Cli.EmptyCommand.
Proof.
  intros Hn. unfold Cli.runWrapper. repeat split.
  - now rewrite (indexOf_absent _ _ Hn).
  - rewrite (indexOf_first _ _ _ Hn), length_app. simpl.
    destruct (Nat.eqb_spec (List.length pre) (List.length pre + 1 - 1)); [reflexivity | lia].
  - rewrite (indexOf_first _ _ _ Hn), length_app. simpl.
    destruct (Nat.eqb_spec (List.length pre) (List.length pre + S (S (List.length args)) - 1)); [lia|].
    rewrite drop_app_ge by lia.
    replace (List.length pre + 1 - List.length pre)%nat with 1%nat by lia. reflexivity.
Qed.

Lemma no_command_is_an_error_witness :
  Cli.runWrapper (fun _ => Cli.NaN) ["node"; "cli.js"; "-v"] = Cli.UsageError /\
  Cli.runWrapper (fun _ => Cli.NaN) (["node"; "cli.js"; "-v"] ++ ["--"]) = Cli.UsageError /\
  Cli.runWrapper (fun _ => Cli.NaN) (["node"; "cli.js"; "-v"] ++ "--" :: "" :: ["x"])
  = Cli.EmptyCommand.
Proof.
  refine (no_command_is_an_error (fun _ => Cli.NaN) ["node"; "cli.js"; "-v"] ["x"] _).
  simpl. intros H. repeat (destruct H as [H|H]; [discriminate H|]). exact H.
Defined.

Lemma flag_one o a :
  Cli.verbose (Cli.flag o a) = Cli.verbose o || Cli.is_verbose_flag a /\
  Cli.detached (Cli.flag o a) = Cli.detached o || Cli.is_detached_flag a /\
  Cli.windowsHide (Cli.flag o a) = Cli.windowsHide o && negb (Cli.is_no_hide_flag a) /\
  Cli.label (Cli.flag o a) = Cli.label o /\
  Cli.timeout (Cli.flag o a) = Cli.timeout o /\
  Cli.cwd (Cli.flag o a) = Cli.cwd o /\
  Cli.shell (Cli.flag o a) = Cli.shell o.
Proof.
  unfold Cli.flag, Cli.is_verbose_flag, Cli.is_detached_flag, Cli.is_no_hide_flag, Cli.one_of.
  destruct o as [l t c v d sh h]. cbn [existsb].
  repeat match goal with
         | |- context [String.eqb a ?s] =>
             destruct (String.eqb_spec a s); [subst a; cbn|]
         end;
    cbn; rewrite ?orb_true_r, ?orb_false_r, ?andb_true_r, ?andb_false_r; repeat split.
Qed.

Lemma flag_fields toks :
  forall o,
    Cli.verbose (fold_left Cli.flag toks o) = Cli.verbose o || existsb Cli.is_verbose_flag toks /\
    Cli.detached (fold_left Cli.flag toks o) = Cli.detached o || existsb Cli.is_detached_flag toks /\
    Cli.windowsHide (fold_left Cli.flag toks o) =
      Cli.windowsHide o && negb (existsb Cli.is_no_hide_flag toks) /\
    Cli.label (fold_left Cli.flag toks o) = Cli.label o /\
    Cli.timeout (fold_left Cli.flag toks o) = Cli.timeout o /\
    Cli.cwd (fold_left Cli.flag toks o) = Cli.cwd o /\
    Cli.shell (fold_left Cli.flag toks o) = Cli.shell o.
Proof.
  induction toks as [|a toks IH]; intros o; simpl.
  - now rewrite !orb_false_r, andb_true_r.
  - destruct (IH (Cli.flag o a)) as (-> & -> & -> & -> & -> & -> & ->).
    destruct (flag_one o a) as (-> & -> & -> & -> & -> & -> & ->).
    rewrite negb_orb, !orb_assoc, andb_assoc. repeat split.
Qed.

Lemma not_in_cons2 (x a b : string) l : a <> x -> b <> x -> ~ In x l -> ~ In x (a :: b :: l).
Proof. intros Ha Hb Hl [H|[H|H]]; auto. Qed.

(** X17: a command line whose arguments before the [--] are all plain ones
    (no option that takes a value).  [runWrapper] launches the command with
    options that do not depend on the order of the arguments and ignore the
    unknown ones: verbose when [-v] or [--verbose] is among them, detached
    when [-d] or [--detached] is, not hidden when [--no-hide] is, and no
    label, timeout, working directory or shell. *)
Theorem plain_arguments_are_flags
    (parseInt : option string -> Cli.JsNumber) (node script : string)
    (toks : list string) (command : string) (args : list string) :
  node <> "--" -> script <> "--" -> ~ In "--" toks ->
  Forall (fun a => Cli.plain a = true) toks -> command <> "" ->
  exists o,
    Cli.runWrapper parseInt (node :: script :: toks ++ "--" :: command :: args)
    = Cli.Launch o command args /\
    Cli.verbose o = existsb Cli.is_verbose_flag toks /\
    Cli.detached o = existsb Cli.is_detached_flag toks /\
    Cli.windowsHide o = negb (existsb Cli.is_no_hide_flag toks) /\
    Cli.label o = None /\ Cli.timeout o = None /\ Cli.cwd o = None /\
    Cli.shell o = Cli.ShellUnset.
Proof.
  intros Hn Hs Ht Hp Hc.
  exists (fold_left Cli.flag toks Cli.defaults). split.
  - change (node :: script :: toks ++ "--" :: command :: args)%list
      with ((node :: script :: toks) ++ "--" :: command :: args)%list.
    rewrite runWrapper_split; [|now apply not_in_cons2 | exact Hc]. f_equal.
    etransitivity.
    { apply (parse_loop_plain parseInt toks [node; script] ("--" :: command :: args)
               (List.length (node :: script :: toks)) (List.length (node :: script :: toks))
               Cli.defaults Hp); simpl; lia. }
    apply parse_loop_done. simpl. lia.
  - destruct (flag_fields toks Cli.defaults) as (-> & -> & -> & -> & -> & -> & ->).
    repeat split.
Qed.

Lemma plain_arguments_are_flags_witness :
  exists o,
    Cli.runWrapper (fun _ => Cli.NaN)
      ("node" :: "cli.js" :: ["--frobnicate"; "-d"; "-v"] ++ "--" :: "npx" :: ["-y"; "server"])
    = Cli.Launch o "npx" ["-y"; "server"] /\
    Cli.verbose o = existsb Cli.is_verbose_flag ["--frobnicate"; "-d"; "-v"] /\
    Cli.detached o = existsb Cli.is_detached_flag ["--frobnicate"; "-d"; "-v"] /\
    Cli.windowsHide o = negb (existsb Cli.is_no_hide_flag ["--frobnicate"; "-d"; "-v"]) /\
    Cli.label o = None /\ Cli.timeout o = None /\ Cli.cwd o = None /\
    Cli.shell o = Cli.ShellUnset.
Proof.
  refine (plain_arguments_are_flags (fun _ => Cli.NaN) "node" "cli.js"
            ["--frobnicate"; "-d"; "-v"] "npx" ["-y"; "server"] _ _ _ _ _).
  - discriminate.
  - discriminate.
  - simpl. intros H. repeat (destruct H as [H|H]; [discriminate H|]). exact H.
  - repeat first [apply Forall_nil_2 | apply Forall_cons_2; [reflexivity|]].
  - discriminate.
Defined.

Lemma parse_step_valued parseInt opt x o :
  Cli.valued opt = true ->
  Cli.parse_step parseInt (Some opt) (Some x) o = (Cli.assign parseInt opt x o, 1%nat).
Proof.
  unfold Cli.valued, Cli.parse_step, Cli.assign, Cli.one_of. cbn [existsb].
  repeat match goal with
         | |- context [String.eqb opt ?s] =>
             destruct (String.eqb_spec opt s); [subst opt; cbn|]
         end;
    cbn; intros H; try reflexivity; discriminate H.
Qed.

Lemma valued_not_dashes opt : Cli.valued opt = true -> opt <> "--".
Proof. intros H ->. discriminate H. Qed.

(** One turn of the loop on an option that takes a value. *)
Lemma parse_loop_valued parseInt done opt x tail d fuel o :
  Cli.valued opt = true -> (List.length done < d)%nat ->
  Cli.parse_loop parseInt (S fuel) (done ++ opt :: x :: tail) d (List.length done) o =
  Cli.parse_loop parseInt fuel (done ++ opt :: x :: tail) d (List.length done + 2)
    (Cli.assign parseInt opt x o).
Proof.
  intros Hv Hd. simpl.
  destruct (Nat.ltb_spec (List.length done) d) as [_|Hge]; [|lia].
  assert ((done ++ opt :: x :: tail)%list !! List.length done = Some opt) as ->.
  { rewrite lookup_app_r by lia. now rewrite Nat.sub_diag. }
  assert ((done ++ opt :: x :: tail)%list !! (List.length done + 1)%nat = Some x) as ->.
  { rewrite lookup_app_r by lia.
    now replace (List.length done + 1 - List.length done)%nat with 1%nat by lia. }
  rewrite (parse_step_valued _ _ _ _ Hv). f_equal. lia.
Qed.

(** X18: an option that takes a value ([-l], [--label], [-t], [--timeout],
    [-c], [--cwd]) takes the argument after it, whatever that argument looks
    like, and the argument is not read as an option of its own: with plain
    arguments around, the options are the flags before, then the assignment,
    then the flags after; the value is skipped. *)
Theorem valued_option_takes_next_argument
    (parseInt : option string -> Cli.JsNumber) (node script : string)
    (before : list string) (opt x : string) (after : list string)
    (command : string) (args : list string) :
  node <> "--" -> script <> "--" -> ~ In "--" before -> x <> "--" -> ~ In "--" after ->
  Forall (fun a => Cli.plain a = true) before ->
  Forall (fun a => Cli.plain a = true) after ->
  Cli.valued opt = true -> command <> "" ->
  Cli.runWrapper parseInt
    (node :: script :: before ++ opt :: x :: after ++ "--" :: command :: args) =
  Cli.Launch
    (fold_left Cli.flag after (Cli.assign parseInt opt x (fold_left Cli.flag before Cli.defaults)))
    command args.
Proof.
  intros Hn Hs Hb Hx Ha Hpb Hpa Hv Hc.
  pose proof (valued_not_dashes _ Hv) as Ho.
  set (pre := (node :: script :: before ++ opt :: x :: after)%list).
  replace (node :: script :: before ++ opt :: x :: after ++ "--" :: command :: args)%list
    with (pre ++ "--" :: command :: args)%list
    by (unfold pre; simpl; now rewrite <- app_assoc).
  rewrite runWrapper_split; [| |exact Hc].
  2:{ unfold pre. apply not_in_cons2; auto. rewrite in_app_iff. intros [H|[H|[H|H]]]; auto. }
  f_equal.
  assert (List.length pre = (2 + List.length before + 2 + List.length after)%nat) as Hlen
    by (unfold pre; simpl; rewrite length_app; simpl; lia).
  replace (pre ++ "--" :: command :: args)%list
    with ([node; script] ++ before ++ opt :: x :: after ++ "--" :: command :: args)%list
    by (unfold pre; simpl; now rewrite <- app_assoc).
  etransitivity.
  { apply (parse_loop_plain parseInt before [node; script]
             (opt :: x :: after ++ "--" :: command :: args)
             (List.length pre) (List.length pre) Cli.defaults Hpb); rewrite Hlen; simpl; lia. }
  replace (List.length pre - List.length before)%nat with (S (3 + List.length after)) by lia.
  rewrite app_assoc.
  replace (List.length [node; script] + List.length before)%nat
    with (List.length ([node; script] ++ before)%list) by now rewrite length_app.
  rewrite parse_loop_valued; [|exact Hv | rewrite Hlen, length_app; simpl; lia].
  replace (([node; script] ++ before) ++ opt :: x :: after ++ "--" :: command :: args)%list
    with (([node; script] ++ before ++ [opt; x]) ++ after ++ "--" :: command :: args)%list
    by (simpl; rewrite <- !app_assoc; reflexivity).
  replace (List.length ([node; script] ++ before)%list + 2)%nat
    with (List.length ([node; script] ++ before ++ [opt; x])%list)
    by (rewrite !length_app; simpl; lia).
  etransitivity.
  { apply parse_loop_plain; [exact Hpa | rewrite Hlen, !length_app; simpl; lia | lia]. }
  apply parse_loop_done. rewrite Hlen, !length_app. simpl. lia.
Qed.

Lemma valued_option_takes_next_argument_witness :
  Cli.runWrapper (fun _ => Cli.NaN)
    ("node" :: "cli.js" :: ["-d"] ++ "--label" :: "-v" :: ["--no-hide"] ++
       "--" :: "npx" :: ["-y"; "server"]) =
  Cli.Launch
    (fold_left Cli.flag ["--no-hide"]
       (Cli.assign (fun _ => Cli.NaN) "--label" "-v" (fold_left Cli.flag ["-d"] Cli.defaults)))
    "npx" ["-y"; "server"].
Proof.
  refine (valued_option_takes_next_argument (fun _ => Cli.NaN) "node" "cli.js"
            ["-d"] "--label" "-v" ["--no-hide"] "npx" ["-y"; "server"] _ _ _ _ _ _ _ _ _).
  - discriminate.
  - discriminate.
  - simpl. intros H. repeat (destruct H as [H|H]; [discriminate H|]). exact H.
  - discriminate.
  - simpl. intros H. repeat (destruct H as [H|H]; [discriminate H|]). exact H.
  - repeat first [apply Forall_nil_2 | apply Forall_cons_2; [reflexivity|]].
  - repeat first [apply Forall_nil_2 | apply Forall_cons_2; [reflexivity|]].
  - reflexivity.
  - discriminate.
Defined.

(** X19: an option that takes a value and stands right before the [--] takes
    the [--] itself as its value; the command after the [--] is launched all
    the same. *)
Theorem valued_option_without_value_takes_dashes
    (parseInt : option string -> Cli.JsNumber) (node script : string)
    (before : list string) (opt : string) (command : string) (args : list string) :
  node <> "--" -> script <> "--" -> ~ In "--" before ->
  Forall (fun a => Cli.plain a = true) before ->
  Cli.valued opt = true -> command <> "" ->
  Cli.runWrapper parseInt (node :: script :: before ++ opt :: "--" :: command :: args) =
  Cli.Launch (Cli.assign parseInt opt "--" (fold_left Cli.flag before Cli.defaults))
    command args.
Proof.
  intros Hn Hs Hb Hpb Hv Hc.
  pose proof (valued_not_dashes _ Hv) as Ho.
  set (pre := (node :: script :: before ++ [opt])%list).
  replace (node :: script :: before ++ opt :: "--" :: command :: args)%list
    with (pre ++ "--" :: command :: args)%list
    by (unfold pre; simpl; now rewrite <- app_assoc).
  rewrite runWrapper_split; [| |exact Hc].
  2:{ unfold pre. apply not_in_cons2; auto. rewrite in_app_iff. intros [H|[H|H]]; auto. }
  f_equal.
  assert (List.length pre = (2 + List.length before + 1)%nat) as Hlen
    by (unfold pre; simpl; rewrite length_app; simpl; lia).
  replace (pre ++ "--" :: command :: args)%list
    with ([node; script] ++ before ++ opt :: "--" :: command :: args)%list
    by (unfold pre; simpl; now rewrite <- app_assoc).
  etransitivity.
  { apply (parse_loop_plain parseInt before [node; script]
             (opt :: "--" :: command :: args)
             (List.length pre) (List.length pre) Cli.defaults Hpb); rewrite Hlen; simpl; lia. }
  replace (List.length pre - List.length before)%nat with 3%nat by lia.
  rewrite app_assoc.
  replace (List.length [node; script] + List.length before)%nat
    with (List.length ([node; script] ++ before)%list) by now rewrite length_app.
  rewrite parse_loop_valued; [|exact Hv | rewrite Hlen, length_app; simpl; lia].
  apply parse_loop_done. rewrite Hlen, !length_app. simpl. lia.
Qed.

Lemma valued_option_without_value_takes_dashes_witness :
  Cli.runWrapper (fun _ => Cli.NaN)
    ("node" :: "cli.js" :: ["-v"] ++ "-l" :: "--" :: "npx" :: ["-y"; "server"]) =
  Cli.Launch (Cli.assign (fun _ => Cli.NaN) "-l" "--" (fold_left Cli.flag ["-v"] Cli.defaults))
    "npx" ["-y"; "server"].
Proof.
  refine (valued_option_without_value_takes_dashes (fun _ => Cli.NaN) "node" "cli.js"
            ["-v"] "-l" "npx" ["-y"; "server"] _ _ _ _ _ _).
  - discriminate.
  - discriminate.
  - simpl. intros H. repeat (destruct H as [H|H]; [discriminate H|]). exact H.
  - repeat first [apply Forall_nil_2 | apply Forall_cons_2; [reflexivity|]].
  - reflexivity.
  - discriminate.
Defined.

Lemma parse_step_shell parseInt opt next o :
  Cli.is_shell_option opt = true ->
  Cli.parse_step parseInt (Some opt) next o =
  if Cli.names_a_shell next
  then (Cli.set_shell (match next with Some x => Cli.ShellPath x | None => Cli.ShellTrue end) o,
        1%nat)
  else (Cli.set_shell Cli.ShellTrue o, 0%nat).
Proof.
  unfold Cli.is_shell_option, Cli.parse_step, Cli.one_of. cbn [existsb].
  repeat match goal with
         | |- context [String.eqb opt ?s] =>
             destruct (String.eqb_spec opt s); [subst opt; cbn|]
         end;
    cbn; intros H; try reflexivity; discriminate H.
Qed.

Lemma shell_option_not_dashes opt : Cli.is_shell_option opt = true -> opt <> "--".
Proof. intros H ->. discriminate H. Qed.

Lemma names_a_shell_not_dashes x : Cli.names_a_shell (Some x) = true -> x <> "--".
Proof. intros H ->. discriminate H. Qed.

(** One turn of the loop, whatever the argument. *)
Lemma parse_loop_turn parseInt done a tail d fuel o :
  (List.length done < d)%nat ->
  Cli.parse_loop parseInt (S fuel) (done ++ a :: tail) d (List.length done) o =
  let (o', skip) := Cli.parse_step parseInt (Some a) (head tail) o in
  Cli.parse_loop parseInt fuel (done ++ a :: tail) d (List.length done + skip + 1) o'.
Proof.
  intros Hd. simpl.
  destruct (Nat.ltb_spec (List.length done) d) as [_|Hge]; [|lia].
  assert ((done ++ a :: tail)%list !! List.length done = Some a) as ->.
  { rewrite lookup_app_r by lia. now rewrite Nat.sub_diag. }
  assert ((done ++ a :: tail)%list !! (List.length done + 1)%nat = head tail) as ->.
  { rewrite lookup_app_r by lia.
    replace (List.length done + 1 - List.length done)%nat with 1%nat by lia.
    now destruct tail. }
  reflexivity.
Qed.

(** X23: the shell option ([-s], [--shell]) reads ahead.  When the argument
    after it is not empty and does not start with [-], that argument is the
    shell and is skipped; otherwise (an option, or the [--]) the shell is
    [true] and the argument after it is read as an argument of its own. *)
Theorem shell_option_reads_ahead
    (parseInt : option string -> Cli.JsNumber) (node script : string)
    (before : list string) (opt : string) (after : list string)
    (command : string) (args : list string) :
  node <> "--" -> script <> "--" -> ~ In "--" before -> ~ In "--" after ->
  Forall (fun a => Cli.plain a = true) before ->
  Forall (fun a => Cli.plain a = true) after ->
  Cli.is_shell_option opt = true -> command <> "" ->
  (forall x, Cli.names_a_shell (Some x) = true ->
     Cli.runWrapper parseInt
       (node :: script :: before ++ opt :: x :: after ++ "--" :: command :: args) =
     Cli.Launch
       (fold_left Cli.flag after
          (Cli.set_shell (Cli.ShellPath x) (fold_left Cli.flag before Cli.defaults)))
       command args) /\
  (Cli.names_a_shell (head after) = false ->
     Cli.runWrapper parseInt
       (node :: script :: before ++ opt :: after ++ "--" :: command :: args) =
     Cli.Launch
       (fold_left Cli.flag after
          (Cli.set_shell Cli.ShellTrue (fold_left Cli.flag before Cli.defaults)))
       command args).
Proof.
  intros Hn Hs Hb Ha Hpb Hpa Hv Hc.
  pose proof (shell_option_not_dashes _ Hv) as Ho.
  split.
  - intros x Hx. pose proof (names_a_shell_not_dashes _ Hx) as Hxd.
    set (pre := (node :: script :: before ++ opt :: x :: after)%list).
    replace (node :: script :: before ++ opt :: x :: after ++ "--" :: command :: args)%list
      with (pre ++ "--" :: command :: args)%list
      by (unfold pre; simpl; now rewrite <- app_assoc).
    rewrite runWrapper_split; [| |exact Hc].
    2:{ unfold pre. apply not_in_cons2; auto. rewrite in_app_iff. intros [H|[H|[H|H]]]; auto. }
    f_equal.
    assert (List.length pre = (2 + List.length before + 2 + List.length after)%nat) as Hlen
      by (unfold pre; simpl; rewrite length_app; simpl; lia).
    replace (pre ++ "--" :: command :: args)%list
      with ([node; script] ++ before ++ opt :: x :: after ++ "--" :: command :: args)%list
      by (unfold pre; simpl; now rewrite <- app_assoc).
    etransitivity.
    { apply (parse_loop_plain parseInt before [node; script]
               (opt :: x :: after ++ "--" :: command :: args)
               (List.length pre) (List.length pre) Cli.defaults Hpb); rewrite Hlen; simpl; lia. }
    replace (List.length pre - List.length before)%nat with (S (3 + List.length after)) by lia.
    rewrite app_assoc.
    replace (List.length [node; script] + List.length before)%nat
      with (List.length ([node; script] ++ before)%list) by now rewrite length_app.
    rewrite parse_loop_turn by (rewrite Hlen, length_app; simpl; lia).
    rewrite (parse_step_shell _ _ _ _ Hv). cbn [head]. rewrite Hx.
    replace (([node; script] ++ before) ++ opt :: x :: after ++ "--" :: command :: args)%list
      with (([node; script] ++ before ++ [opt; x]) ++ after ++ "--" :: command :: args)%list
      by (simpl; rewrite <- !app_assoc; reflexivity).
    replace (List.length ([node; script] ++ before)%list + 1 + 1)%nat
      with (List.length ([node; script] ++ before ++ [opt; x])%list)
      by (rewrite !length_app; simpl; lia).
    etransitivity.
    { apply parse_loop_plain; [exact Hpa | rewrite Hlen, !length_app; simpl; lia | lia]. }
    apply parse_loop_done. rewrite Hlen, !length_app. simpl. lia.
  - intros Hbare.
    set (pre := (node :: script :: before ++ opt :: after)%list).
    replace (node :: script :: before ++ opt :: after ++ "--" :: command :: args)%list
      with (pre ++ "--" :: command :: args)%list
      by (unfold pre; simpl; now rewrite <- app_assoc).
    rewrite runWrapper_split; [| |exact Hc].
    2:{ unfold pre. apply not_in_cons2; auto. rewrite in_app_iff. intros [H|[H|H]]; auto. }
    f_equal.
    assert (List.length pre = (2 + List.length before + 1 + List.length after)%nat) as Hlen
      by (unfold pre; simpl; rewrite length_app; simpl; lia).
    replace (pre ++ "--" :: command :: args)%list
      with ([node; script] ++ before ++ opt :: after ++ "--" :: command :: args)%list
      by (unfold pre; simpl; now rewrite <- app_assoc).
    etransitivity.
    { apply (parse_loop_plain parseInt before [node; script]
               (opt :: after ++ "--" :: command :: args)
               (List.length pre) (List.length pre) Cli.defaults Hpb); rewrite Hlen; simpl; lia. }
    replace (List.length pre - List.length before)%nat with (S (2 + List.length after)) by lia.
    rewrite app_assoc.
    replace (List.length [node; script] + List.length before)%nat
      with (List.length ([node; script] ++ before)%list) by now rewrite length_app.
    rewrite parse_loop_turn by (rewrite Hlen, length_app; simpl; lia).
    rewrite (parse_step_shell _ _ _ _ Hv).
    assert (Cli.names_a_shell (head (after ++ "--" :: command :: args)%list) = false) as ->
      by (destruct after; [reflexivity | exact Hbare]).
    replace (([node; script] ++ before) ++ opt :: after ++ "--" :: command :: args)%list
      with (([node; script] ++ before ++ [opt]) ++ after ++ "--" :: command :: args)%list
      by (simpl; rewrite <- !app_assoc; reflexivity).
    replace (List.length ([node; script] ++ before)%list + 0 + 1)%nat
      with (List.length ([node; script] ++ before ++ [opt])%list)
      by (rewrite !length_app; simpl; lia).
    etransitivity.
    { apply parse_loop_plain; [exact Hpa | rewrite Hlen, !length_app; simpl; lia | lia]. }
    apply parse_loop_done. rewrite Hlen, !length_app. simpl. lia.
Qed.

Lemma shell_option_reads_ahead_witness :
  Cli.runWrapper (fun _ => Cli.NaN)
    ("node" :: "cli.js" :: ["-d"] ++ "-s" :: "bash" :: ["-v"] ++ "--" :: "npx" :: ["server"]) =
  Cli.Launch
    (fold_left Cli.flag ["-v"]
       (Cli.set_shell (Cli.ShellPath "bash") (fold_left Cli.flag ["-d"] Cli.defaults)))
    "npx" ["server"] /\
  Cli.runWrapper (fun _ => Cli.NaN)
    ("node" :: "cli.js" :: ["-d"] ++ "-s" :: ["-v"] ++ "--" :: "npx" :: ["server"]) =
  Cli.Launch
    (fold_left Cli.flag ["-v"]
       (Cli.set_shell Cli.ShellTrue (fold_left Cli.flag ["-d"] Cli.defaults)))
    "npx" ["server"].
Proof.
  assert (~ In "--" ["-d"]) as Hb
    by (simpl; intros H; repeat (destruct H as [H|H]; [discriminate H|]); exact H).
  assert (~ In "--" ["-v"]) as Ha
    by (simpl; intros H; repeat (destruct H as [H|H]; [discriminate H|]); exact H).
  assert ("node" <> "--") as Hn by discriminate.
  assert ("cli.js" <> "--") as Hs by discriminate.
  assert ("npx" <> "") as Hc by discriminate.
  destruct (shell_option_reads_ahead (fun _ => Cli.NaN) "node" "cli.js"
              ["-d"] "-s" ["-v"] "npx" ["server"] Hn Hs Hb Ha
              (Forall_cons_2 _ "-d" [] (@eq_refl _ true) (Forall_nil_2 _))
              (Forall_cons_2 _ "-v" [] (@eq_refl _ true) (Forall_nil_2 _))
              (@eq_refl _ true) Hc) as [Hnamed Hbare].
  exact (conj (Hnamed "bash" (@eq_refl _ true)) (Hbare (@eq_refl _ false))).
Defined.

(** *** The command line and the wrapper *)

(** X20: what the wrapper made by [runWrapper] does follows the command line,
    in every run.  Every child it spawns gets the arguments after the command
    unchanged, is hidden unless [--no-hide] was given, is detached only on
    Unix and only with [-d], and runs the command itself (on Windows [npx] may
    be replaced by one of the two npx paths); the timeout timer is armed only
    with the number [parseInt] read for [-t], never for NaN or 0; and the
    wrapper writes to standard output only with [-v]. *)
Theorem launched_child_follows_command_line
    (basename : string -> string) (win : bool) (npxCmd npxBat : string)
    (existsSync : string -> bool) (co : Cli.Options) (command : string) (args : list string)
    (evs : list (Env * Event)) (a : Action) :
  let wo := Cli.wrapper_options basename
              (Cli.resolve_command win npxCmd npxBat existsSync command) co command args in
  In a (effects (run evs (new_World (new_ProcessWrapper basename win wo)))) ->
  match a with
  | Spawn c args' hide det =>
      (c = command \/ (win = true /\ command = "npx" /\ (c = npxCmd \/ c = npxBat))) /\
      args' = args /\ hide = Cli.windowsHide co /\
      det = (if win then false else Cli.detached co)
  | SetTimeout TimeoutTimer ms => Cli.timeout co = Some (Cli.Num ms) /\ ms <> 0
  | Console stdout _ => Cli.verbose co = true
  | _ => True
  end.
Proof.
  intros wo Hin.
  pose proof (proj1 (List.Forall_forall _ _) (reached_allowed basename win wo evs) _ Hin) as H.
  destruct a as [[|] line|c args' hide det| | | | |[| | |] ms|]; simpl in H; try exact I.
  - exact H.
  - destruct H as (-> & -> & -> & ->). repeat split.
    + unfold Cli.resolve_command.
      destruct win; simpl; [|now left].
      destruct (String.eqb_spec command "npx") as [->|]; [|now left].
      destruct (existsSync npxCmd); [right; auto|].
      destruct (existsSync npxBat); [right; auto | now left].
    + now destruct (Cli.windowsHide co).
  - destruct H as [Ht Hms]. split; [|exact Hms].
    destruct (Cli.timeout co) as [[z|]|]; simpl in Ht; congruence.
Qed.

Lemma launched_child_follows_command_line_witness :
  let co := Cli.set_detached true Cli.defaults in
  let wo := Cli.wrapper_options as_is
              (Cli.resolve_command true "npx.cmd" "npx.bat" (fun _ => true) "npx")
              co "npx" ["-y"; "server"] in
  let w := run [(delivering, CallStart (Spawned 4242))]
               (new_World (new_ProcessWrapper as_is true wo)) in
  In (Spawn "npx.cmd" ["-y"; "server"] true false) (effects w) /\ false = false.
Proof.
  intros co wo w.
  assert (In (Spawn "npx.cmd" ["-y"; "server"] true false) (effects w)) as Hin
    by (vm_compute; left; reflexivity).
  exact (conj Hin
           (proj2 (proj2 (proj2
              (launched_child_follows_command_line as_is true "npx.cmd" "npx.bat"
                 (fun _ => true) co "npx" ["-y"; "server"]
                 [(delivering, CallStart (Spawned 4242))]
                 (Spawn "npx.cmd" ["-y"; "server"] true false) Hin))))).
Defined.

Lemma process_exit_unheard code env w :
  exiting w = None -> listeners w = [] ->
  process_exit code env w = (Ok tt, set_exiting (Some code) (emit (ProcessExit code) w)).
Proof.
  intros Hex Hl. unfold process_exit, bind, get, modify, process_emit, listeners_of.
  rewrite Hex. unfold bind, get. cbn [listeners set_exiting emit]. now rewrite Hl.
Qed.

(** X21: when the child exits, the command line tool exits with the value the
    promise of [start] settled to: the exit code of the child, and 0 for a
    child that a signal killed.  By then the wrapper has taken its handlers
    off [process], so this [process.exit] runs none of them: beyond the line
    the verbose mode prints, the exit is the only thing that happens. *)
Theorem cli_exits_with_child_code
    (basename : string -> string) (win : bool) (o : WrapperOptions.t)
    (evs : list (Env * Event)) (env env' : Env) (k : nat) (code : option Z)
    (signal : option string) (chalk_green : string -> string) (co : Cli.Options) :
  let w := run evs (new_World (new_ProcessWrapper basename win o)) in
  exiting w = None -> pending k w ->
  let w' := step env (ChildExit k code signal) w in
  let c := code_or_0 code in
  resolved k w' = Some c /\
  fst (Cli.after_start chalk_green co c env' w') = Ok tt /\
  exiting (snd (Cli.after_start chalk_green co c env' w')) = Some c /\
  effects (snd (Cli.after_start chalk_green co c env' w')) =
    (effects w' ++
     (if Cli.verbose co
      then [Console stdout (chalk_green ("[reliable-mcp] Process exited with code " +:+ pretty c))]
      else []) ++
     [ProcessExit c])%list.
Proof.
  intros w Hex Hp w' c.
  assert (tidy w) as Ht by (apply run_tidy, tidy_new; reflexivity).
  pose proof (step_child_exit env k code signal _ w Hex Hp eq_refl) as Hx. fold w' in Hx.
  assert (tidy w') as [_ Hl'] by (apply step_tidy, Ht).
  rewrite (ex_child _ _ _ _ Hx) in Hl'.
  assert (exiting w' = None) as Hex' by now rewrite (ex_exiting _ _ _ _ Hx).
  split; [now apply exit_settles|].
  assert (Cli.after_start chalk_green co c env' w' =
          (Ok tt, set_exiting (Some c) (emit (ProcessExit c)
             (if Cli.verbose co
              then emit (Console stdout
                           (chalk_green ("[reliable-mcp] Process exited with code "
                                         +:+ pretty c))) w'
              else w')))) as ->.
  { unfold Cli.after_start, bind, console, modify, ret.
    destruct (Cli.verbose co); now apply process_exit_unheard. }
  destruct (Cli.verbose co); simpl; rewrite <- ?app_assoc; repeat split.
Qed.

Lemma cli_exits_with_child_code_witness :
  let w := run [(delivering, CallStart (Spawned 4242))]
               (new_World (new_ProcessWrapper as_is false
                  (WrapperOptions.mk "sleep" (Some ["10"]) None None None None None))) in
  let w' := step delivering (ChildExit 0 None (Some "SIGTERM")) w in
  let c := code_or_0 None in
  resolved 0 w' = Some c /\
  fst (Cli.after_start as_is Cli.defaults c delivering w') = Ok tt /\
  exiting (snd (Cli.after_start as_is Cli.defaults c delivering w')) = Some c /\
  effects (snd (Cli.after_start as_is Cli.defaults c delivering w')) =
    (effects w' ++
     (if Cli.verbose Cli.defaults
      then [Console stdout (as_is ("[reliable-mcp] Process exited with code " +:+ pretty c))]
      else []) ++
     [ProcessExit c])%list.
Proof.
  exact (cli_exits_with_child_code as_is false
           (WrapperOptions.mk "sleep" (Some ["10"]) None None None None None)
           [(delivering, CallStart (Spawned 4242))] delivering delivering 0 None
           (Some "SIGTERM") as_is Cli.defaults (@eq_refl _ None)
           (@eq_refl _ (Some (mkRun true None)))).
Defined.

(** X22: when the spawn call itself throws, [start] rejects with the message
    of the error before it has kept a child, registered a handler or armed a
    timer, and the [catch] block of [runWrapper] writes the message to the
    error stream and exits with status 1, running no handler. *)
Theorem cli_exits_1_when_spawn_throws
    (basename : string -> string) (win : bool) (o : WrapperOptions.t) (msg : string)
    (chalk_red : string -> string) (env : Env) :
  let w0 := new_World (new_ProcessWrapper basename win o) in
  let w1 := snd (start (SpawnThrows msg) w0) in
  fst (start (SpawnThrows msg) w0) = Throw msg /\
  child (this w1) = None /\ listeners w1 = [] /\ timers w1 = [] /\ runs w1 = [] /\
  exiting (snd (Cli.catch_start chalk_red msg env w1)) = Some 1 /\
  effects (snd (Cli.catch_start chalk_red msg env w1)) =
    (effects w1 ++
     [Console stderr (chalk_red ("[reliable-mcp] Error: " +:+ msg)); ProcessExit 1])%list.
Proof.
  intros w0 w1. subst w1 w0.
  destruct o as [command args hide det t l v].
  destruct v as [[|]|]; cbv -[String.append String.concat String.eqb app pretty];
    repeat split.
Qed.
